(** * irmago: the session store of the server core and the HTTP transport

  A shallow embedding of
  - [internal/servercore/sessions.go]: the in-memory session store, its
    expiry sweep [deleteExpired], session creation [newSession] and token
    generation [newSessionToken];
  - the HTTP transport of package [irmago] ([HTTPTransport.request] and
    its wrappers [Post], [Get], [Delete]).

  Mutation is written as explicit state passing.  Calls whose order
  matters (locks, [markAlive], [setStatus], closing an event source,
  deleting from the map) are also recorded in a trace of [event]s. *)

From Stdlib Require Import ZArith String Ascii List Lia Bool.
From stdpp Require Import base gmap strings list fin_maps.

Local Open Scope Z_scope.

(** ** Time, as package [time] is used by the store *)

Module GoTime.

(** An instant, in nanoseconds on one time line. [time.Duration] is an
    [int64] count of nanoseconds. *)
Abbreviation Time := Z (only parsing).
Abbreviation Duration := Z (only parsing).

(** Two's-complement wrap-around of 64-bit signed arithmetic. *)
Definition wrap64 (z : Z) : Z := (z + 2 ^ 63) mod 2 ^ 64 - 2 ^ 63.

Definition Second : Duration := 1000000000.
Definition Minute : Duration := 60 * Second.

(** [time.Duration(n) * time.Second] for an integer [n]. *)
Definition seconds (n : Z) : Duration := wrap64 (n * Second).

(** [t.Add(d)] and [t.Before(u)]. *)
Definition Add (t : Time) (d : Duration) : Time := t + d.
Definition Before (t u : Time) : bool := t <? u.

End GoTime.

(** ** The server core: sessions and their store *)

Module Servercore.
Import GoTime.

(** [irma.Action]. *)
Inductive Action :=
| ActionDisclosing | ActionSigning | ActionIssuing | ActionUnknown.

(** Modelled from the spec: [server.Status], declared in package
    [server], which is not part of the sources at hand.  Section 4.2
    lists the states in this order. *)
Inductive Status :=
| StatusInitialized | StatusConnected | StatusCommunicating
| StatusCancelled | StatusDone | StatusTimeout.

#[global] Instance Status_eq_dec : EqDecision Status.
Proof. solve_decision. Defined.

#[global] Instance Action_eq_dec : EqDecision Action.
Proof. solve_decision. Defined.

(** Modelled from the spec: [Status.Finished] of package [server]; the
    last three states are terminal. *)
Definition Finished (st : Status) : bool :=
  match st with
  | StatusCancelled | StatusDone | StatusTimeout => true
  | StatusInitialized | StatusConnected | StatusCommunicating => false
  end.

(** A pointer to a session request object on the heap, and the handle
    of an [eventsource.EventSource]. *)
Abbreviation ptr := nat (only parsing).
Abbreviation EventSource := nat (only parsing).

(** Modelled from the spec: the request types of package [irma].  The
    base of a requestor request carries the client timeout (seconds)
    and the optional callback URL; the session request carries nonce
    and context ([*big.Int], nil before the server sets them). *)
Record RequestorBaseRequest := {
  ClientTimeout : Z;
  CallbackUrl : string;
}.

Record SessionRequestObj := {
  Nonce : option Z;
  Context : option Z;
}.

(** A requestor request: [Base()] and the pointer that
    [SessionRequest()] returns. *)
Record RequestorRequest := {
  Base : RequestorBaseRequest;
  SessionRequest : ptr;
}.

(** [server.SessionResult], as far as [newSession] fills it. *)
Record SessionResult := {
  Token : string;
  Type_ : Action;
  ResultStatus : Status;
}.

(** The [session] struct.  The mutex is represented by lock events in
    the trace; [conf] and [sessions] point back to the server's
    configuration and store and are left out. *)
Record session := {
  action : Action;
  token : string;
  version : option (Z * Z);
  rrequest : RequestorRequest;
  request : ptr;
  status : Status;
  prevStatus : Status;
  evtSource : option EventSource;
  lastActive : Time;
  result : SessionResult;
  kssProofs : gmap string Z;
}.

Definition with_lastActive (t : Time) (s : session) : session :=
  {| action := action s; token := token s; version := version s;
     rrequest := rrequest s; request := request s;
     status := status s; prevStatus := prevStatus s;
     evtSource := evtSource s; lastActive := t;
     result := result s; kssProofs := kssProofs s |}.

Definition with_status (prev st : Status) (s : session) : session :=
  {| action := action s; token := token s; version := version s;
     rrequest := rrequest s; request := request s;
     status := st; prevStatus := prev;
     evtSource := evtSource s; lastActive := lastActive s;
     result := {| Token := Token (result s); Type_ := Type_ (result s);
                  ResultStatus := st |};
     kssProofs := kssProofs s |}.

(** What the code does, in the order it does it. *)
Inductive event :=
| EvRLock | EvRUnlock | EvLock | EvUnlock
| EvSessionLock (tok : string) | EvSessionUnlock (tok : string)
| EvLog (tok : string) (msg : string)
| EvMarkAlive (tok : string) (t : Time)
| EvSetStatus (tok : string) (st : Status)
| EvSignal (src : EventSource) (st : Status)
| EvClose (src : EventSource)
| EvDelete (tok : string).

(** Modelled from the spec: [session.markAlive], "refresh timestamp":
    [lastActive] becomes the current time. *)
Definition markAlive (now : Time) (s : session) : session :=
  with_lastActive now s.

(** Modelled from the spec: [session.setStatus], section 4.2:
    "records prevStatus <- status; status <- s, updates result.status,
    and signals the event sink". *)
Definition setStatus (st : Status) (s : session) : session :=
  with_status (status s) st s.

(** Modelled from the spec: the signal [setStatus] sends to the event
    sink of the session, when it has one. *)
Definition signalTrace (st : Status) (s : session) : list event :=
  match evtSource s with
  | Some src => [EvSignal src st]
  | None => []
  end.

Definition maxSessionLifetime : Duration := 5 * Minute.

Definition sessionChars : string :=
  "abcdefghijklmnopqrstuvwxyzABCDEFGHIJKLMNOPQRSTUVWXYZ0123456789".

(** *** The store *)

(** [memorySessionStore.m].  Every [*session] in the map is stored under
    one token, so the map holds the sessions themselves. *)
Abbreviation store := (gmap string session).

(** [get]: read lock, map lookup (nil when absent), unlock. *)
Definition get (m : store) (tok : string)
  : option session * store * list event :=
  (m !! tok, m, [EvRLock; EvRUnlock]).

(** [add]: write lock, [s.m[token] = session], unlock. *)
Definition add (m : store) (tok : string) (s : session)
  : store * list event :=
  (<[tok := s]> m, [EvLock; EvUnlock]).

(** *** The expiry sweep *)

(** The two clock readings taken while the sweep is at one session: the
    [time.Now()] of the expiry test and the one inside [markAlive].  The
    sweep is given the readings for each token, so that its result does
    not depend on the order in which Go ranges over the map. *)
Record readings := {
  at_check : Time;
  at_alive : Time;
}.

(** Lines 89-92: the timeout that applies to a session. *)
Definition sessionTimeout (s : session) : Duration :=
  if decide (status s = StatusInitialized
             ∧ ClientTimeout (Base (rrequest s)) ≠ 0)
  then seconds (ClientTimeout (Base (rrequest s)))
  else maxSessionLifetime.

(** Lines 87-104, the body of the first loop: the session after the
    visit, the list of expired tokens and the events of the visit. *)
Definition sweepBody (r : readings) (tok : string) (s : session)
    (expired : list string) : session * list string * list event :=
  let timeout := sessionTimeout s in
  if Before (Add (lastActive s) timeout) (at_check r) then
    if negb (Finished (status s)) then
      let s1 := markAlive (at_alive r) s in
      let s2 := setStatus StatusTimeout s1 in
      (s2, expired,
       [EvSessionLock tok; EvLog (token s) "Session expired";
        EvMarkAlive tok (at_alive r); EvSetStatus tok StatusTimeout]
       ++ signalTrace StatusTimeout s1 ++ [EvSessionUnlock tok])
    else
      (s, expired ++ [tok],
       [EvSessionLock tok; EvLog (token s) "Deleting session";
        EvSessionUnlock tok])
  else (s, expired, [EvSessionLock tok; EvSessionUnlock tok]).

(** The parts of the loop body, named for the statements about the
    sweep: whether the session has expired at the reading of the test,
    the session the visit leaves, the tokens it appends, its events. *)
Definition isExpired (r : readings) (s : session) : bool :=
  Before (Add (lastActive s) (sessionTimeout s)) (at_check r).

Definition visited (r : readings) (s : session) : session :=
  (sweepBody r (token s) s []).1.1.

Definition condemned (r : readings) (tok : string) (s : session)
    : list string :=
  (sweepBody r tok s []).1.2.

Definition visitTrace (r : readings) (tok : string) (s : session)
    : list event :=
  (sweepBody r tok s []).2.

(** The events of a visit that times the session out. *)
Definition timeoutTrace (r : readings) (tok : string) (s : session)
    : list event :=
  [EvSessionLock tok; EvLog (token s) "Session expired";
   EvMarkAlive tok (at_alive r); EvSetStatus tok StatusTimeout]
  ++ signalTrace StatusTimeout (markAlive (at_alive r) s)
  ++ [EvSessionUnlock tok].

(** Whether an event takes or releases the lock of the store. *)
Definition isStoreLockEvent (e : event) : bool :=
  match e with
  | EvRLock | EvRUnlock | EvLock | EvUnlock => true
  | _ => false
  end.

Record sweepState := {
  sw_m : store;
  sw_expired : list string;
  sw_trace : list event;
}.

(** The first loop over the entries of the map, in the order given. *)
Fixpoint sweep (clock : string → readings)
    (entries : list (string * session)) (st : sweepState) : sweepState :=
  match entries with
  | [] => st
  | (tok, s) :: rest =>
      let '(s', expired, tr) := sweepBody (clock tok) tok s (sw_expired st) in
      sweep clock rest
        {| sw_m := <[tok := s']> (sw_m st);
           sw_expired := expired;
           sw_trace := sw_trace st ++ tr |}
  end.

Definition closeTrace (s : session) : list event :=
  match evtSource s with
  | Some src => [EvClose src]
  | None => []
  end.

(** Lines 110-116, the second loop.  [s.m[token]] of an absent token is
    nil, and reading [session.evtSource] then panics: [None]. *)
Fixpoint removeExpired (expired : list string) (m : store)
    (tr : list event) : option (store * list event) :=
  match expired with
  | [] => Some (m, tr)
  | tok :: rest =>
      match m !! tok with
      | None => None
      | Some s =>
          removeExpired rest (delete tok m)
            (tr ++ closeTrace s ++ [EvDelete tok])
      end
  end.

(** The sweep, unfolded over its entries. *)
Definition sweptMap (clock : string → readings)
    (entries : list (string * session)) (m : gmap string session)
    : gmap string session :=
  foldl (λ m e, <[e.1 := visited (clock e.1) e.2]> m) m entries.

Definition sweptExpired (clock : string → readings)
    (entries : list (string * session)) : list string :=
  flat_map (λ e, condemned (clock e.1) e.1 e.2) entries.

Definition sweptTrace (clock : string → readings)
    (entries : list (string * session)) : list event :=
  flat_map (λ e, visitTrace (clock e.1) e.1 e.2) entries.

(** The second loop: the map it leaves and the events it adds. *)
Definition removedMap (expired : list string) (m : gmap string session)
    : gmap string session :=
  foldl (λ m tok, delete tok m) m expired.

Definition removalOf (m : gmap string session) (tok : string)
    : list event :=
  match m !! tok with
  | Some s => closeTrace s ++ [EvDelete tok]
  | None => []
  end.

Definition removalTrace (m : gmap string session) (expired : list string)
    : list event :=
  flat_map (removalOf m) expired.

(** [memorySessionStore.deleteExpired].  The method has a value
    receiver: the lock events are those of the [RWMutex] of the copy it
    is called on, while the map is the one of the store. *)
Definition deleteExpired (clock : string → readings) (m : store)
    : option (store * list event) :=
  let st := sweep clock (map_to_list m)
              {| sw_m := m; sw_expired := []; sw_trace := [EvRLock] |} in
  match removeExpired (sw_expired st) (sw_m st)
          (sw_trace st ++ [EvRUnlock; EvLock]) with
  | Some (m', tr) => Some (m', tr ++ [EvUnlock])
  | None => None
  end.

(** *** Session creation *)

(** [rand.Int63()]: the [k]-th output of the global source of
    [math/rand], a non-negative 63-bit integer; [src] gives the raw
    outputs of the source. *)
Definition Int63 (src : nat → Z) (k : nat) : Z := Z.land (src k) (Z.ones 63).

(** [s[i]] for an integer index; out of range Go panics: [None]. *)
Definition charAt (s : string) (i : Z) : option ascii :=
  if decide (0 ≤ i < Z.of_nat (String.length s))
  then String.get (Z.to_nat i) s
  else None.

(** Line 153: the index that an output [r] of [rand.Int63] selects,
    [r % int64(len(sessionChars))].  Go's [%] is the truncated
    remainder. *)
Definition charIndex (r : Z) : Z :=
  Z.rem r (Z.of_nat (String.length sessionChars)).

(** The loop of [newSessionToken] over the [n] bytes still to fill,
    when [calls] outputs of the source have been used. *)
Fixpoint tokenBytes (src : nat → Z) (calls n : nat) : option (list ascii) :=
  match n with
  | O => Some []
  | S n' =>
      match charAt sessionChars (charIndex (Int63 src calls)) with
      | None => None
      | Some c =>
          match tokenBytes src (S calls) n' with
          | None => None
          | Some cs => Some (c :: cs)
          end
      end
  end.

(** [newSessionToken]: the token and the number of outputs used. *)
Definition newSessionToken (src : nat → Z) (calls : nat)
    : option (string * nat) :=
  match tokenBytes src calls 20 with
  | None => None
  | Some cs => Some (string_of_list_ascii cs, (calls + 20)%nat)
  end.

(** Membership in [A-Za-z0-9], by character code. *)
Definition isAlnum (c : ascii) : bool :=
  let n := nat_of_ascii c in
  ((65 <=? n) && (n <=? 90) || (97 <=? n) && (n <=? 122)
   || (48 <=? n) && (n <=? 57))%nat.

(** How many of the outputs [0], ..., [bound - 1] of [rand.Int63] select
    the character at index [k]. *)
Definition drawsFor (bound : Z) (k : Z) : nat :=
  length (filter (λ r, charIndex r = k) (seqZ 0 bound)).

(** [gabi.SystemParameters], as far as [newSession] reads it. *)
Record SystemParameters := {
  Lstatzk : Z;
}.

(** The state [newSession] works on: the store, the heap of session
    request objects, and how often the two random sources were used. *)
Record serverState := {
  sessions : store;
  heap : gmap ptr SessionRequestObj;
  randCalls : nat;
  nonceCalls : nat;
}.

Section NewSession.

(** The raw outputs of the global source of [math/rand]. *)
Variable randSource : nat → Z.

(** [gabi.DefaultSystemParameters] and [gabi.RandomBigInt]: the result of
    the [k]-th call for the given number of bits; [None] is the nil that
    comes with an error. *)
Variable DefaultSystemParameters : Z → SystemParameters.
Variable RandomBigInt : Z → nat → option Z.

(** [one], the package variable [big.NewInt(1)]. *)
Definition one : Z := 1.

Definition SetNonce (nonce : option Z) (r : SessionRequestObj)
    : SessionRequestObj :=
  {| Nonce := nonce; Context := Context r |}.

Definition SetContext (context : option Z) (r : SessionRequestObj)
    : SessionRequestObj :=
  {| Nonce := Nonce r; Context := context |}.

(** [Server.newSession], called at time [now].  [ses.request] is the
    pointer [request.SessionRequest()]; the setters write through it, and
    on a pointer to no object they panic: [None]. *)
Definition newSession (now : Time) (act : Action)
    (req : RequestorRequest) (st : serverState)
    : option (session * serverState * list event) :=
  match newSessionToken randSource (randCalls st) with
  | None => None
  | Some (tok, calls') =>
      let ses :=
        {| action := act;
           rrequest := req;
           request := SessionRequest req;
           lastActive := now;
           token := tok;
           status := StatusInitialized;
           prevStatus := StatusInitialized;
           result := {| Token := tok; Type_ := act;
                        ResultStatus := StatusInitialized |};
           version := None;
           evtSource := None;
           kssProofs := ∅ |} in
      let nonce :=
        RandomBigInt (Lstatzk (DefaultSystemParameters 2048))
                     (nonceCalls st) in
      match heap st !! request ses with
      | None => None
      | Some r =>
          let r' := SetContext (Some one) (SetNonce nonce r) in
          let '(m', tr) := add (sessions st) tok ses in
          Some (ses,
                {| sessions := m';
                   heap := <[request ses := r']> (heap st);
                   randCalls := calls';
                   nonceCalls := S (nonceCalls st) |},
                EvLog (token ses) "New session started" :: tr)
      end
  end.

End NewSession.

(** The first position of a character in a string, and a source of
    [math/rand] whose outputs from [calls] on select the characters of
    [cs] one after the other. *)
Fixpoint indexOfChar (c : ascii) (s : string) : option nat :=
  match s with
  | EmptyString => None
  | String a rest =>
      if Ascii.eqb a c then Some 0%nat else S <$> indexOfChar c rest
  end.

Definition sourceFor (calls : nat) (cs : list ascii) : nat → Z :=
  λ i,
    match cs !! (i - calls)%nat ≫= λ c, indexOfChar c sessionChars with
    | Some n => Z.of_nat n
    | None => 0
    end.

(** *** The locking discipline, read off the traces *)

(** How the [RWMutex] of the receiver is held, and which session's lock
    is held. *)
Inductive storeLock := Unlocked | ReadLocked | WriteLocked.

Record lockState := {
  ls_store : storeLock;
  ls_session : option string;
}.

Definition noLocks : lockState :=
  {| ls_store := Unlocked; ls_session := None |}.

Definition readLocked : lockState :=
  {| ls_store := ReadLocked; ls_session := None |}.

Definition writeLocked : lockState :=
  {| ls_store := WriteLocked; ls_session := None |}.

(** One event of [deleteExpired], checked against the locks held, where
    the lock of the store is the [RWMutex] of the receiver: that lock is
    taken only when no lock is held; a session's lock is taken only
    under the read lock and when no other session's lock is held;
    [markAlive], [setStatus] and the signal to the event sink happen
    under the lock of their session; closing an event source and
    deleting from the map happen under the write lock. *)
Definition lockStep (st : lockState) (e : event) : option lockState :=
  match e, ls_store st, ls_session st with
  | EvRLock, Unlocked, None =>
      Some {| ls_store := ReadLocked; ls_session := None |}
  | EvRUnlock, ReadLocked, None => Some noLocks
  | EvLock, Unlocked, None =>
      Some {| ls_store := WriteLocked; ls_session := None |}
  | EvUnlock, WriteLocked, None => Some noLocks
  | EvSessionLock tok, ReadLocked, None =>
      Some {| ls_store := ReadLocked; ls_session := Some tok |}
  | EvSessionUnlock tok, ReadLocked, Some held =>
      if decide (tok = held)
      then Some {| ls_store := ReadLocked; ls_session := None |}
      else None
  | EvMarkAlive tok _, ReadLocked, Some held
  | EvSetStatus tok _, ReadLocked, Some held =>
      if decide (tok = held) then Some st else None
  | EvSignal _ _, ReadLocked, Some _ => Some st
  | EvLog _ _, _, _ => Some st
  | EvClose _, WriteLocked, None => Some st
  | EvDelete _, WriteLocked, None => Some st
  | _, _, _ => None
  end.

Fixpoint lockRun (st : lockState) (tr : list event) : option lockState :=
  match tr with
  | [] => Some st
  | e :: rest =>
      match lockStep st e with
      | Some st' => lockRun st' rest
      | None => None
      end
  end.

(** Whether an event changes a session or the map. *)
Definition isEffect (e : event) : bool :=
  match e with
  | EvMarkAlive _ _ | EvSetStatus _ _ | EvSignal _ _
  | EvClose _ | EvDelete _ => true
  | _ => false
  end.

(** Every session is stored under its own token. *)
Definition keysMatch (m : store) : Prop :=
  ∀ tok s, m !! tok = Some s → token s = tok.

End Servercore.

(** ** Package [irmago]: session errors and the HTTP transport *)

Module Irmago.

(** A Go [error] value, by its message, and a byte slice, as a string. *)
Abbreviation error := string (only parsing).
Abbreviation bytes := string (only parsing).

(** [type ErrorType string] and the constants the transport uses. *)
Abbreviation ErrorType := string (only parsing).

Definition ErrorTransport : ErrorType := "transport".
Definition ErrorSerialization : ErrorType := "serialization".
Definition ErrorApi : ErrorType := "api".
Definition ErrorServerResponse : ErrorType := "serverResponse".

(** [ApiError], the error message of an API server. *)
Record ApiError := {
  ApiStatus : Z;
  ErrorName : string;
  Description : string;
  Message : string;
  Stacktrace : string;
}.

(** The zero value [&ApiError{}]. *)
Definition emptyApiError : ApiError :=
  {| ApiStatus := 0; ErrorName := ""; Description := "";
     Message := ""; Stacktrace := "" |}.

(** [SessionError]; fields left out of a composite literal are zero. *)
Record SessionError := {
  Err : option error;
  ErrType : ErrorType;
  ApiErr : option ApiError;
  Info : string;
  Status : Z;
}.

(** [SessionError.Error]; the message of the wrapped error is the error
    itself. *)
Definition Error (e : SessionError) : string :=
  match Err e with
  | Some err => String.append (ErrType e) (String.append ": " err)
  | None => ErrType e
  end.

(** [http.MethodGet], [http.MethodPost], [http.MethodDelete]. *)
Definition MethodGet : string := "GET".
Definition MethodPost : string := "POST".
Definition MethodDelete : string := "DELETE".

(** [http.Header], with the single values that [Set] stores. *)
Abbreviation Header := (gmap string string).

(** The [*http.Request] handed to [client.Do]. *)
Record Request := {
  Method : string;
  URL : string;
  ReqBody : option bytes;
  ReqHeader : Header;
}.

(** The [*http.Response]: the status code, and what [ioutil.ReadAll]
    gives for its body. *)
Record Response := {
  StatusCode : Z;
  Body : error + bytes;
}.

(** [HTTPTransport]; the [*http.Client] is the function [clientDo]
    below. *)
Record HTTPTransport := {
  Server : string;
  headers : gmap string string;
}.

(** [SetHeader]. *)
Definition SetHeader (name val : string) (transport : HTTPTransport)
    : HTTPTransport :=
  {| Server := Server transport;
     headers := <[name := val]> (headers transport) |}.

(** [strings.HasSuffix]. *)
Definition HasSuffix (s suffix : string) : bool :=
  (String.length suffix <=? String.length s)%nat
  && String.eqb
       (substring (String.length s - String.length suffix)
                  (String.length suffix) s)
       suffix.

(** [NewHTTPTransport]; the client, with its timeout of five seconds, is
    the function [clientDo] below. *)
Definition NewHTTPTransport (serverURL : string) : HTTPTransport :=
  let url := serverURL in
  let url := if negb (HasSuffix url "/") then String.append url "/"
             else url in
  {| Server := url; headers := ∅ |}.

Section Transport.

(** Go values other than strings: what is marshalled to JSON and what
    JSON is unmarshalled into. *)
Variable Value : Type.

(** [object interface{}]: nil, a string, or another value. *)
Inductive Object :=
| ObjNil
| ObjString (s : string)
| ObjValue (v : Value).

(** [result interface{}]: nil, a [*string] (with what it points to), or
    a pointer to another value. *)
Inductive Result :=
| ResNil
| ResString (s : string)
| ResValue (v : Value).

(** The libraries the transport calls:
    - [json.Marshal];
    - [json.Unmarshal] into an [*ApiError] (its error is dropped by the
      caller) and into a result value (the value it leaves, its error);
      the error it gives for a nil target;
    - [textproto.CanonicalMIMEHeaderKey], which [Header.Set] applies to
      the name;
    - the error of [http.NewRequest], if any;
    - [client.Do]. *)
Variable jsonMarshal : Value → error + bytes.
Variable unmarshalApiError : bytes → ApiError → ApiError.
Variable jsonUnmarshal : bytes → Value → Value * option error.
Variable unmarshalNilError : bytes → error.
Variable CanonicalMIMEHeaderKey : string → string.
Variable newRequestError : string → string → option error.
Variable clientDo : Request → error + Response.

(** [req.Header.Set(name, val)]. *)
Definition HeaderSet (name val : string) (h : Header) : Header :=
  <[CanonicalMIMEHeaderKey name := val]> h.

(** Lines 86-88: the transport's own headers, set in the order of the
    range over the map. *)
Definition setCustomHeaders (custom : list (string * string)) (h : Header)
    : Header :=
  foldl (λ h nv, HeaderSet nv.1 nv.2 h) h custom.

(** How a call of [request] ends: a panic, or a return with the error
    (nil: [None]), the caller's result as the call leaves it, and the
    request given to [client.Do], if the call got that far. *)
Inductive outcome :=
| Panic (msg : string)
| Return (err : option SessionError) (result : Result)
         (sent : option Request).

Definition mkError (ty : ErrorType) (err : option error)
    (api : option ApiError) (st : Z) : SessionError :=
  {| Err := err; ErrType := ty; ApiErr := api; Info := ""; Status := st |}.

Definition isNilObject (object : Object) : bool :=
  match object with
  | ObjNil => true
  | _ => false
  end.

(** Lines 51-71: the reader for the body; [verbose] is the constant
    [false]. *)
Definition bodyReader (object : Object) : error + option bytes :=
  match object with
  | ObjNil => inr None
  | ObjString objstr => inr (Some objstr)
  | ObjValue v =>
      match jsonMarshal v with
      | inl err => inl err
      | inr marshaled => inr (Some marshaled)
      end
  end.

(** Lines 78-88: the headers of the request. *)
Definition requestHeaders (transport : HTTPTransport) (object : Object)
    : Header :=
  let h0 := HeaderSet "User-Agent" "irmago" ∅ in
  let h1 :=
    match object with
    | ObjNil => h0
    | ObjString _ => HeaderSet "Content-Type" "text/plain; charset=UTF-8" h0
    | ObjValue _ =>
        HeaderSet "Content-Type" "application/json; charset=UTF-8" h0
    end in
  setCustomHeaders (map_to_list (headers transport)) h1.

(** Lines 99-127: what is done with the response of a GET or POST. *)
Definition handleResponse (res : Response) (result : Result)
    : option SessionError * Result :=
  match Body res with
  | inl err =>
      (Some (mkError ErrorServerResponse (Some err) None (StatusCode res)),
       result)
  | inr body =>
      if decide (StatusCode res ≠ 200) then
        let apierr := unmarshalApiError body emptyApiError in
        if decide (ErrorName apierr = "") then
          (Some (mkError ErrorServerResponse None None (StatusCode res)),
           result)
        else
          (Some (mkError ErrorApi None (Some apierr) (StatusCode res)),
           result)
      else
        match result with
        | ResString _ => (None, ResString body)
        | ResValue v =>
            let '(v', err) := jsonUnmarshal body v in
            match err with
            | Some e =>
                (Some (mkError ErrorServerResponse (Some e) None
                               (StatusCode res)),
                 ResValue v')
            | None => (None, ResValue v')
            end
        | ResNil =>
            (Some (mkError ErrorServerResponse
                           (Some (unmarshalNilError body)) None
                           (StatusCode res)),
             ResNil)
        end
  end.

(** [HTTPTransport.request]. *)
Definition request (transport : HTTPTransport) (url method : string)
    (result : Result) (object : Object) : outcome :=
  if decide (method ≠ MethodPost ∧ method ≠ MethodGet
             ∧ method ≠ MethodDelete) then
    Panic ("Unsupported HTTP method " ++ method)
  else if bool_decide (method = MethodGet) && negb (isNilObject object) then
    Panic "Cannot GET and also post an object"
  else
    match bodyReader object with
    | inl err =>
        Return (Some (mkError ErrorSerialization (Some err) None 0))
               result None
    | inr reader =>
        match newRequestError method (Server transport ++ url) with
        | Some err =>
            Return (Some (mkError ErrorTransport (Some err) None 0))
                   result None
        | None =>
            let req :=
              {| Method := method;
                 URL := Server transport ++ url;
                 ReqBody := reader;
                 ReqHeader := requestHeaders transport object |} in
            match clientDo req with
            | inl err =>
                Return (Some (mkError ErrorTransport (Some err) None 0))
                       result (Some req)
            | inr res =>
                if decide (method = MethodDelete) then
                  Return None result (Some req)
                else
                  let '(err, result') := handleResponse res result in
                  Return err result' (Some req)
            end
        end
    end.

(** [Post], [Get] and [Delete]. *)
Definition Post (transport : HTTPTransport) (url : string)
    (result : Result) (object : Object) : outcome :=
  request transport url MethodPost result object.

Definition Get (transport : HTTPTransport) (url : string)
    (result : Result) : outcome :=
  request transport url MethodGet result ObjNil.

(** [Delete] has no result: what remains of the call is the request it
    sent, or the panic. *)
Definition Delete (transport : HTTPTransport) : string + option Request :=
  match request transport "" MethodDelete ResNil ObjNil with
  | Panic msg => inl msg
  | Return _ _ sent => inr sent
  end.

End Transport.

(** *** Requestor JWTs *)

(** The actions of this package: [type Action string]. *)
Definition ActionDisclosing : string := "disclosing".
Definition ActionSigning : string := "signing".
Definition ActionIssuing : string := "issuing".
Definition ActionUnknown : string := "unknown".

(** [strings.Split(s, sep)] for a separator of one byte: the pieces
    between the separators, one more than there are separators. *)
Fixpoint Split (s : string) (sep : ascii) : list string :=
  match s with
  | EmptyString => [EmptyString]
  | String c rest =>
      if Ascii.eqb c sep then EmptyString :: Split rest sep
      else
        match Split rest sep with
        | piece :: pieces => String c piece :: pieces
        | [] => [String c EmptyString]
        end
  end.

Section Jwt.

(** What the body is decoded into, and the libraries:
    [base64.RawStdEncoding.DecodeString]; [json.Unmarshal] into the
    header struct (the issuer it leaves, its error) and into the body (the
    value it leaves, its error). *)
Variable Target : Type.
Variable base64Decode : string → error + bytes.
Variable unmarshalHeader : bytes → string * option error.
Variable unmarshalBody : bytes → Target → Target * option error.

(** [jwtDecode]: the issuer, the error, and the body as the call leaves
    it. *)
Definition jwtDecode (jwt : string) (body : Target)
    : string * option error * Target :=
  let jwtparts := Split jwt "." in
  if (length jwtparts <? 2)%nat then ("", Some "Not a JWT", body)
  else
    match base64Decode (nth 0 jwtparts "") with
    | inl err => ("", Some err, body)
    | inr headerbytes =>
        let '(issuer, herr) := unmarshalHeader headerbytes in
        match herr with
        | Some err => ("", Some err, body)
        | None =>
            match base64Decode (nth 1 jwtparts "") with
            | inl err => ("", Some err, body)
            | inr bodybytes =>
                let '(body', err) := unmarshalBody bodybytes body in
                (issuer, err, body')
            end
        end
    end.

End Jwt.

(** The three kinds of [RequestorJwt]: pointers to a
    [ServiceProviderJwt], a [SignatureRequestorJwt] or an
    [IdentityProviderJwt]. *)
Inductive JwtKind :=
| ServiceProviderJwt | SignatureRequestorJwt | IdentityProviderJwt.

Section RequestorJwt.

(** The fields of a requestor JWT, the zero value of each kind, and
    [json.Unmarshal] into a JWT of each kind. *)
Variable Content : Type.
Variable zeroContent : JwtKind → Content.
Variable base64Decode : string → error + bytes.
Variable unmarshalHeader : bytes → string * option error.
Variable unmarshalJwt : JwtKind → bytes → Content → Content * option error.

Record RequestorJwt := {
  jwtKind : JwtKind;
  jwtContent : Content;
}.

(** [json.Unmarshal] through the pointer keeps the kind. *)
Definition unmarshalRequestorJwt (b : bytes) (j : RequestorJwt)
    : RequestorJwt * option error :=
  let '(c, err) := unmarshalJwt (jwtKind j) b (jwtContent j) in
  ({| jwtKind := jwtKind j; jwtContent := c |}, err).

(** [parseRequestorJwt]: the JWT (nil: [None]), the server, the
    error. *)
Definition parseRequestorJwt (action : string) (jwt : string)
    : option RequestorJwt * string * option error :=
  let retval :=
    if decide (action = ActionDisclosing) then Some ServiceProviderJwt
    else if decide (action = ActionSigning) then Some SignatureRequestorJwt
    else if decide (action = ActionIssuing) then Some IdentityProviderJwt
    else None in
  match retval with
  | None => (None, "", Some "Invalid session type")
  | Some kind =>
      let '(server, err, retval') :=
        jwtDecode RequestorJwt base64Decode unmarshalHeader
          unmarshalRequestorJwt jwt
          {| jwtKind := kind; jwtContent := zeroContent kind |} in
      match err with
      | Some e => (None, "", Some e)
      | None => (Some retval', server, None)
      end
  end.

End RequestorJwt.

End Irmago.

(** ** Package [cmd]: the default permissions *)

Module Cmd.

Section Viper.

(** [viper.IsSet], [viper.GetBool] and [viper.GetStringSlice]; a nil
    slice is [None]. *)
Variable IsSet : string → bool.
Variable GetBool : string → bool.
Variable GetStringSlice : string → option (list string).

(** [handlePermission]. *)
Definition handlePermission (typ : string) : option (list string) :=
  if negb (IsSet typ)
     && (negb (GetBool "production") || negb (String.eqb typ "issue-perms"))
  then Some ["*"]
  else
    let perms := GetStringSlice typ in
    match perms with
    | None => Some []
    | Some _ => perms
    end.

(** The [Permissions] that [configure] puts into the configuration. *)
Record Permissions := {
  Disclosing : option (list string);
  Signing : option (list string);
  Issuing : option (list string);
}.

Definition configuredPermissions : Permissions :=
  {| Disclosing := handlePermission "disclose-perms";
     Signing := handlePermission "sign-perms";
     Issuing := handlePermission "issue-perms" |}.

End Viper.

End Cmd.

(** ** A concrete setting for the transport *)

Module TransportExamples.
Import Irmago.

(** [textproto.CanonicalMIMEHeaderKey]: a name with a byte that is not a
    token character is returned as it is; otherwise the first letter and
    every letter after a hyphen become upper case and the other letters
    lower case. *)
Definition isUpper (c : ascii) : bool :=
  ((65 <=? nat_of_ascii c) && (nat_of_ascii c <=? 90))%nat.

Definition isLower (c : ascii) : bool :=
  ((97 <=? nat_of_ascii c) && (nat_of_ascii c <=? 122))%nat.

Definition isDigit (c : ascii) : bool :=
  ((48 <=? nat_of_ascii c) && (nat_of_ascii c <=? 57))%nat.

Definition isTokenByte (c : ascii) : bool :=
  isUpper c || isLower c || isDigit c
  || existsb (Ascii.eqb c) (list_ascii_of_string "!#$%&'*+-.^_`|~").

Definition toUpper (c : ascii) : ascii :=
  if isLower c then ascii_of_nat (nat_of_ascii c - 32) else c.

Definition toLower (c : ascii) : ascii :=
  if isUpper c then ascii_of_nat (nat_of_ascii c + 32) else c.

Fixpoint canonicalize (upper : bool) (s : string) : string :=
  match s with
  | EmptyString => EmptyString
  | String c rest =>
      let c' := if upper then toUpper c else toLower c in
      String c' (canonicalize (Ascii.eqb c' "-") rest)
  end.

Definition canonicalKey (s : string) : string :=
  if forallb isTokenByte (list_ascii_of_string s)
  then canonicalize true s
  else s.

(** Values are left abstract: there is one, marshalled to [{}]. *)
Definition marshalUnit : unit → string + string := λ _, inr "{}".

(** A decoder that knows one error message of an API server. *)
Definition bodyUnknownSession : string := "<unknownSession>".

Definition apiUnknownSession : ApiError :=
  {| ApiStatus := 400; ErrorName := "unknownSession";
     Description := "unknown session"; Message := ""; Stacktrace := "" |}.

Definition decodeApiError : string → ApiError → ApiError :=
  λ body target,
    if String.eqb body bodyUnknownSession then apiUnknownSession
    else target.

Definition decodeUnit : string → unit → unit * option string :=
  λ _ v, (v, None).

Definition nilTargetError : string → string :=
  λ _, "json: Unmarshal(nil)".

Definition noRequestError : string → string → option string :=
  λ _ _, None.

(** A server that answers every request with status 400 and the error
    message above. *)
Definition serverSays400 : Request → string + Response :=
  λ _, inr {| StatusCode := 400; Body := inr bodyUnknownSession |}.

Definition exTransport : HTTPTransport :=
  {| Server := "https://example.com/irma/"; headers := ∅ |}.

(** The request that [Get] hands to [client.Do] for [exTransport]. *)
Definition exGetRequest : Request :=
  {| Method := "GET";
     URL := "https://example.com/irma/status";
     ReqBody := None;
     ReqHeader := {["User-Agent" := "irmago"]} |}.

(** A server that answers every request with status 200 and the body
    [DONE], and an [http.NewRequest] that rejects every URL. *)
Definition serverSays200 : Request → string + Response :=
  λ _, inr {| StatusCode := 200; Body := inr "DONE" |}.

Definition rejectURL : string → string → option string :=
  λ _ _, Some "invalid URL".

(** The request that [Get] hands to [client.Do] once [SetHeader] has
    given the transport a user agent of its own. *)
Definition exGetRequestAgent : Request :=
  {| Method := "GET";
     URL := "https://example.com/irma/status";
     ReqBody := None;
     ReqHeader := {["User-Agent" := "my-client"]} |}.

(** Decoders for a JWT whose parts are not encoded: base64 that returns
    its input, a header that is the issuer, a body that is dropped. *)
Definition plainBase64 : string → string + string := λ s, inr s.

Definition headerIsIssuer : string → string * option string :=
  λ b, (b, None).

Definition dropBody : string → unit → unit * option string :=
  λ _ target, (target, None).

End TransportExamples.

(** ** Concrete sessions and stores *)

Module Examples.
Import GoTime Servercore.

Definition tokA : string := "aaaaaaaaaaaaaaaaaaaa".
Definition tokB : string := "bbbbbbbbbbbbbbbbbbbb".
Definition tokC : string := "cccccccccccccccccccc".

(** A session as [newSession] makes it, then moved to [st], with client
    timeout [ct] (seconds), last active at [la], event source [src]. *)
Definition mkSession (tok : string) (st : Status) (ct : Z) (la : Z)
    (src : option nat) : session :=
  {| action := ActionDisclosing; token := tok; version := None;
     rrequest := {| Base := {| ClientTimeout := ct; CallbackUrl := "" |};
                    SessionRequest := 0%nat |};
     request := 0%nat;
     status := st; prevStatus := StatusInitialized;
     evtSource := src; lastActive := la;
     result := {| Token := tok; Type_ := ActionDisclosing;
                  ResultStatus := st |};
     kssProofs := ∅ |}.

(** Never fetched by a client, no client timeout. *)
Definition sesInitialized : session :=
  mkSession tokA StatusInitialized 0 0 None.


(** Finished, with a subscriber. *)
Definition sesDone : session :=
  mkSession tokB StatusDone 0 0 (Some 7%nat).

(** Fetched by a client, with a client timeout of one minute. *)
Definition sesConnected : session :=
  mkSession tokC StatusConnected 60 0 None.

Definition storeABC : gmap string session :=
  <[tokA := sesInitialized]> (<[tokB := sesDone]> {[tokC := sesConnected]}).

(** A clock that reads [t] seconds throughout a pass. *)
Definition clockAt (t : Z) : string → readings :=
  λ _, {| at_check := t * Second; at_alive := t * Second |}.

(** A source of [math/rand] whose outputs are all 0: every token it
    yields is [tokA]. *)
Definition zeroSource : nat → Z := λ _, 0.

(** System parameters with a statistical zero-knowledge parameter of 128
    bits, and a [RandomBigInt] whose [k]-th result is [k + 41], cut to
    the number of bits asked for (an unsigned number). *)
Definition params128 : Z → SystemParameters := λ _, {| Lstatzk := 128 |}.

Definition countingBigInt : Z → nat → option Z :=
  λ bits k,
    if bits <? 0 then None else Some ((Z.of_nat k + 41) `mod` 2 ^ bits).

(** A session a client has fetched, with a subscriber, stored under
    [tokA]. *)
Definition sesLive : session :=
  mkSession tokA StatusConnected 0 0 (Some 7%nat).

(** A disclosure request whose session request, at address 0, carries
    the nonce 5 and the context 9 that the requestor submitted. *)
Definition reqSubmitted : RequestorRequest :=
  {| Base := {| ClientTimeout := 0; CallbackUrl := "" |};
     SessionRequest := 0%nat |}.

Definition stLive : serverState :=
  {| sessions := {[tokA := sesLive]};
     heap := {[0%nat := {| Nonce := Some 5; Context := Some 9 |}]};
     randCalls := 0;
     nonceCalls := 0 |}.

(** The session that [newSession] makes from [reqSubmitted] at 100
    seconds, with [zeroSource], in state [stLive], and the state it
    leaves. *)
Definition sesNew : session :=
  {| action := ActionSigning; token := tokA; version := None;
     rrequest := reqSubmitted; request := 0%nat;
     status := StatusInitialized; prevStatus := StatusInitialized;
     evtSource := None; lastActive := 100 * Second;
     result := {| Token := tokA; Type_ := ActionSigning;
                  ResultStatus := StatusInitialized |};
     kssProofs := ∅ |}.

Definition stNew : serverState :=
  {| sessions := {[tokA := sesNew]};
     heap := {[0%nat := {| Nonce := Some 41; Context := Some 1 |}]};
     randCalls := 20;
     nonceCalls := 1 |}.

End Examples.

(** * Properties *)

(** ** Durations *)

Module GoTimeFacts.
Import GoTime.

Lemma wrap64_small z : - 2 ^ 63 <= z < 2 ^ 63 -> wrap64 z = z.
Proof.
  intros Hz. unfold wrap64.
  rewrite Z.mod_small; lia.
Qed.

Lemma wrap64_range z : - 2 ^ 63 <= wrap64 z < 2 ^ 63.
Proof.
  unfold wrap64.
  pose proof (Z.mod_pos_bound (z + 2 ^ 63) (2 ^ 64)). lia.
Qed.

(** Up to about 292 years the product does not overflow. *)
Lemma seconds_exact n :
  - 9223372036 <= n <= 9223372036 -> seconds n = n * 1000000000.
Proof.
  intros Hn. unfold seconds, Second. apply wrap64_small. lia.
Qed.

End GoTimeFacts.

(** ** The expiry sweep *)

Module SweepFacts.
Import GoTime Servercore.

Lemma sweepBody_eq r tok s expired :
  sweepBody r tok s expired
  = (visited r s, expired ++ condemned r tok s, visitTrace r tok s).
Proof.
  unfold visited, condemned, visitTrace, sweepBody.
  destruct (Before _ _); [destruct (negb _)|]; simpl;
    by rewrite ?app_nil_r.
Qed.

Lemma visited_eq r s :
  visited r s
  = if isExpired r s && negb (Finished (status s))
    then setStatus StatusTimeout (markAlive (at_alive r) s)
    else s.
Proof.
  unfold visited, sweepBody, isExpired.
  destruct (Before _ _); [destruct (negb _)|]; done.
Qed.

Lemma condemned_eq r tok s :
  condemned r tok s
  = if isExpired r s && Finished (status s) then [tok] else [].
Proof.
  unfold condemned, sweepBody, isExpired.
  destruct (Before _ _); [destruct (Finished _)|]; done.
Qed.

Lemma visitTrace_timeout r tok s :
  isExpired r s = true → Finished (status s) = false →
  visitTrace r tok s = timeoutTrace r tok s.
Proof.
  intros He Hf. unfold visitTrace, sweepBody, timeoutTrace.
  unfold isExpired in He. by rewrite He, Hf.
Qed.

Lemma signalTrace_no_lock st s :
  forallb (λ e, negb (isStoreLockEvent e)) (signalTrace st s) = true.
Proof. unfold signalTrace. by destruct (evtSource s). Qed.

Lemma visitTrace_no_lock r tok s :
  forallb (λ e, negb (isStoreLockEvent e)) (visitTrace r tok s) = true.
Proof.
  unfold visitTrace, sweepBody.
  destruct (Before _ _); [destruct (negb _)|]; simpl; try done.
  rewrite forallb_app, signalTrace_no_lock. done.
Qed.

Lemma closeTrace_no_lock s :
  forallb (λ e, negb (isStoreLockEvent e)) (closeTrace s) = true.
Proof. unfold closeTrace. by destruct (evtSource s). Qed.

Lemma sweep_eq clock entries st :
  sweep clock entries st
  = {| sw_m := sweptMap clock entries (sw_m st);
       sw_expired := sw_expired st ++ sweptExpired clock entries;
       sw_trace := sw_trace st ++ sweptTrace clock entries |}.
Proof.
  revert st. induction entries as [|[tok s] rest IH]; intros st.
  - simpl. rewrite !app_nil_r. by destruct st.
  - simpl. rewrite sweepBody_eq. rewrite IH. simpl.
    by rewrite <- !app_assoc.
Qed.

Lemma sweptMap_notin clock entries (m : gmap string session) tok :
  tok ∉ entries.*1 → sweptMap clock entries m !! tok = m !! tok.
Proof.
  revert m. induction entries as [|[tok' s] rest IH]; intros m Hn; [done|].
  simpl in *. apply not_elem_of_cons in Hn as [Hne Hn].
  unfold sweptMap in *. simpl. rewrite IH by done.
  by rewrite lookup_insert_ne.
Qed.

Lemma sweptMap_in clock entries (m : gmap string session) tok s :
  NoDup entries.*1 → (tok, s) ∈ entries →
  sweptMap clock entries m !! tok = Some (visited (clock tok) s).
Proof.
  revert m. induction entries as [|[tok' s'] rest IH]; intros m Hnd Hin.
  - by apply elem_of_nil in Hin.
  - simpl in Hnd. apply NoDup_cons in Hnd as [Hfresh Hnd].
    apply elem_of_cons in Hin as [Heq|Hin].
    + injection Heq as -> ->. unfold sweptMap. simpl.
      fold (sweptMap clock rest (<[tok':=visited (clock tok') s']> m)).
      rewrite sweptMap_notin by done. by rewrite lookup_insert_eq.
    + unfold sweptMap. simpl. by apply IH.
Qed.

(** After the first loop every session of the map has been visited
    once. *)
Lemma sweptMap_lookup clock (m : gmap string session) tok :
  sweptMap clock (map_to_list m) m !! tok
  = visited (clock tok) <$> m !! tok.
Proof.
  destruct (m !! tok) as [s|] eqn:Hm; simpl.
  - apply sweptMap_in; [apply NoDup_fst_map_to_list|].
    by apply elem_of_map_to_list.
  - rewrite sweptMap_notin; [done|].
    intros Hin. apply list_elem_of_fmap in Hin as [[tok' s] [-> Hin]].
    apply elem_of_map_to_list in Hin. simpl in *. congruence.
Qed.

(** The map the first loop leaves does not depend on the order in which
    the entries are visited. *)
Lemma sweptMap_order clock entries entries' (m : gmap string session) :
  NoDup entries.*1 → entries ≡ₚ entries' →
  sweptMap clock entries m = sweptMap clock entries' m.
Proof.
  intros Hnd Hperm. apply map_eq. intros tok.
  assert (Hnd' : NoDup entries'.*1) by by rewrite <- Hperm.
  destruct (decide (tok ∈ entries.*1)) as [Hin|Hn].
  - apply list_elem_of_fmap in Hin as ([tok' s] & -> & Hin). simpl.
    rewrite (sweptMap_in _ _ _ _ s Hnd Hin).
    symmetry. apply sweptMap_in; [done|]. by rewrite <- Hperm.
  - rewrite sweptMap_notin by done.
    symmetry. apply sweptMap_notin. by rewrite <- Hperm.
Qed.

Lemma sweptExpired_elem clock entries tok :
  tok ∈ sweptExpired clock entries ↔
  ∃ s, (tok, s) ∈ entries
       ∧ isExpired (clock tok) s = true ∧ Finished (status s) = true.
Proof.
  induction entries as [|[tok' s'] rest IH]; simpl.
  - split; [by intros ?%elem_of_nil|]. by intros (? & ?%elem_of_nil & _).
  - rewrite elem_of_app, IH, condemned_eq. split.
    + intros [Hhere|(s & Hin & He & Hf)].
      * destruct (isExpired _ _) eqn:He, (Finished _) eqn:Hf; simpl in *;
          try by apply elem_of_nil in Hhere.
        apply list_elem_of_singleton in Hhere as ->.
        exists s'. split; [left|done].
      * exists s. split; [by right|done].
    + intros (s & Hin & He & Hf). apply elem_of_cons in Hin as [Heq|Hin].
      * injection Heq as -> ->. left. rewrite He, Hf. simpl. left.
      * right. by exists s.
Qed.

Lemma sweptExpired_NoDup clock entries :
  NoDup entries.*1 → NoDup (sweptExpired clock entries).
Proof.
  induction entries as [|[tok s] rest IH]; simpl; intros Hnd.
  - constructor.
  - apply NoDup_cons in Hnd as [Hfresh Hnd].
    apply NoDup_app. split_and!.
    + rewrite condemned_eq. destruct (_ && _); [|constructor].
      apply NoDup_singleton.
    + intros tok' Hin Hin'. rewrite condemned_eq in Hin.
      destruct (_ && _); [|by apply elem_of_nil in Hin].
      apply list_elem_of_singleton in Hin as ->.
      apply sweptExpired_elem in Hin' as (s' & Hin' & _).
      apply Hfresh. apply list_elem_of_fmap. by exists (tok, s').
    + by apply IH.
Qed.

Lemma removalTrace_delete (m : gmap string session) tok expired :
  tok ∉ expired →
  removalTrace (delete tok m) expired = removalTrace m expired.
Proof.
  induction expired as [|tok' rest IH]; intros Hn; [done|].
  apply not_elem_of_cons in Hn as [Hne Hn].
  unfold removalTrace in *. simpl. rewrite IH by done.
  unfold removalOf. by rewrite lookup_delete_ne.
Qed.

Lemma removeExpired_eq expired (m : gmap string session) tr :
  NoDup expired → (∀ tok, tok ∈ expired → is_Some (m !! tok)) →
  removeExpired expired m tr
  = Some (removedMap expired m, tr ++ removalTrace m expired).
Proof.
  revert m tr. induction expired as [|tok rest IH]; intros m tr Hnd Hall.
  - simpl. by rewrite app_nil_r.
  - apply NoDup_cons in Hnd as [Hfresh Hnd].
    destruct (Hall tok) as [s Hs]; [left|].
    simpl. rewrite Hs. rewrite IH; [|done|].
    + rewrite removalTrace_delete by done.
      change (removalTrace m (tok :: rest))
        with (removalOf m tok ++ removalTrace m rest).
      unfold removalOf at 1. rewrite Hs. by rewrite <- !app_assoc.
    + intros tok' Hin. rewrite lookup_delete_ne.
      * apply Hall. by right.
      * intros ->. done.
Qed.

Lemma removedMap_lookup expired (m : gmap string session) tok :
  removedMap expired m !! tok
  = if decide (tok ∈ expired) then None else m !! tok.
Proof.
  revert m. induction expired as [|tok' rest IH]; intros m.
  - unfold removedMap. cbn [foldl].
    destruct (decide (tok ∈ [])) as [Hin|_]; [|done].
    by apply elem_of_nil in Hin.
  - unfold removedMap in *. simpl. rewrite IH.
    destruct (decide (tok ∈ rest)) as [Hin|Hn].
    + rewrite decide_True; [done|by right].
    + destruct (decide (tok = tok')) as [->|Hne].
      * rewrite decide_True; [|left]. apply lookup_delete_eq.
      * rewrite decide_False.
        -- by rewrite lookup_delete_ne.
        -- intros [?|?]%elem_of_cons; done.
Qed.

Lemma removalTrace_no_lock m expired :
  forallb (λ e, negb (isStoreLockEvent e)) (removalTrace m expired) = true.
Proof.
  induction expired as [|tok rest IH]; [done|].
  unfold removalTrace in *. simpl. rewrite forallb_app, IH.
  unfold removalOf. destruct (m !! tok); [|done].
  rewrite forallb_app, closeTrace_no_lock. done.
Qed.

Lemma sweptTrace_no_lock clock entries :
  forallb (λ e, negb (isStoreLockEvent e)) (sweptTrace clock entries) = true.
Proof.
  induction entries as [|e rest IH]; [done|].
  unfold sweptTrace in *. simpl.
  by rewrite forallb_app, IH, visitTrace_no_lock.
Qed.

(** [deleteExpired] never panics, and this is what it returns. *)
Lemma deleteExpired_eq clock (m : gmap string session) :
  deleteExpired clock m
  = Some (removedMap (sweptExpired clock (map_to_list m))
            (sweptMap clock (map_to_list m) m),
          [EvRLock] ++ sweptTrace clock (map_to_list m)
          ++ [EvRUnlock; EvLock]
          ++ removalTrace (sweptMap clock (map_to_list m) m)
               (sweptExpired clock (map_to_list m))
          ++ [EvUnlock]).
Proof.
  unfold deleteExpired. rewrite sweep_eq. cbn [sw_m sw_expired sw_trace].
  rewrite app_nil_l, removeExpired_eq.
  - by rewrite <- !app_assoc.
  - apply sweptExpired_NoDup, NoDup_fst_map_to_list.
  - intros tok (s & Hin & _)%sweptExpired_elem.
    apply elem_of_map_to_list in Hin.
    rewrite sweptMap_lookup, Hin. by eexists.
Qed.

Lemma deleteExpired_lookup clock (m : gmap string session) m' tr tok :
  deleteExpired clock m = Some (m', tr) →
  m' !! tok
  = match m !! tok with
    | None => None
    | Some s =>
        if isExpired (clock tok) s then
          if Finished (status s) then None
          else Some (setStatus StatusTimeout
                       (markAlive (at_alive (clock tok)) s))
        else Some s
    end.
Proof.
  rewrite deleteExpired_eq. intros [= <- _].
  rewrite removedMap_lookup, sweptMap_lookup.
  destruct (decide _) as [Hin|Hn].
  - apply sweptExpired_elem in Hin as (s & Hin & He & Hf).
    apply elem_of_map_to_list in Hin. by rewrite Hin, He, Hf.
  - destruct (m !! tok) as [s|] eqn:Hm; [|done]. simpl.
    rewrite visited_eq.
    destruct (isExpired _ _) eqn:He; [|done].
    destruct (Finished _) eqn:Hf; [|done].
    destruct Hn. apply sweptExpired_elem. exists s.
    by rewrite elem_of_map_to_list.
Qed.

Lemma sweptTrace_split clock entries tok s :
  (tok, s) ∈ entries →
  ∃ before after,
    sweptTrace clock entries
    = before ++ visitTrace (clock tok) tok s ++ after.
Proof.
  intros (l1 & l2 & ->)%list_elem_of_split.
  exists (sweptTrace clock l1), (sweptTrace clock l2).
  unfold sweptTrace. by rewrite flat_map_app.
Qed.

Lemma removalTrace_split m expired tok :
  tok ∈ expired →
  ∃ before after,
    removalTrace m expired = before ++ removalOf m tok ++ after.
Proof.
  intros (l1 & l2 & ->)%list_elem_of_split.
  exists (removalTrace m l1), (removalTrace m l2).
  unfold removalTrace. by rewrite flat_map_app.
Qed.

(** The lock of the store is named by four events. *)
Lemma no_store_lock_events tr :
  forallb (λ e, negb (isStoreLockEvent e)) tr = true →
  ∀ e, e ∈ tr → e ≠ EvRLock ∧ e ≠ EvRUnlock ∧ e ≠ EvLock ∧ e ≠ EvUnlock.
Proof.
  intros Hall e Hin. apply list_elem_of_In in Hin.
  pose proof (proj1 (forallb_forall _ _) Hall e Hin) as He.
  by destruct e.
Qed.

(** The first loop closes no event source and deletes no token. *)
Lemma sweptTrace_no_removal clock entries :
  ∀ e, e ∈ sweptTrace clock entries →
    (∀ src, e ≠ EvClose src) ∧ (∀ tok, e ≠ EvDelete tok).
Proof.
  induction entries as [|[tok s] rest IH]; intros e Hin.
  - by apply elem_of_nil in Hin.
  - unfold sweptTrace in Hin. simpl in Hin.
    apply elem_of_app in Hin as [Hin|Hin]; [|by apply IH].
    unfold visitTrace, sweepBody, signalTrace in Hin.
    destruct (Before _ _); [destruct (negb _)|]; cbn in Hin;
      [destruct (evtSource s); cbn in Hin| |];
      repeat (apply elem_of_cons in Hin as [->|Hin]; [done|]);
      by apply elem_of_nil in Hin.
Qed.

End SweepFacts.

Module SessionsSpec.
Import GoTime Servercore SweepFacts Examples.

(** C1. A pass of [deleteExpired] returns, and its events are a
    read-locked first phase followed by a write-locked second phase;
    neither phase takes or releases the lock of the store, and the first
    phase closes no event source and deletes no token.  For a session
    [s] stored under [tok] with [lastActive + timeout] before the time
    read at its test, where the timeout is the client timeout in seconds
    (exactly so up to 9223372036 seconds, the range of a
    [time.Duration]) when [s] is INITIALIZED and the client timeout is
    not 0, and five minutes otherwise:
    - if [s] is not in a terminal state, the first phase calls
      [markAlive] and then [setStatus(TIMEOUT)] on it under the session's
      lock, signalling the event source when there is one, and the store
      still holds the session, now with status TIMEOUT, the previous
      status remembered, and [lastActive] at the time [markAlive] read;
    - if [s] is in a terminal state, the second phase closes its event
      source, when it has one, and right after that deletes the token
      from the map, which no longer holds it. *)
Theorem deleteExpired_expired_session clock (m : gmap string session) tok s :
  m !! tok = Some s →
  lastActive s + sessionTimeout s < at_check (clock tok) →
  sessionTimeout s
  = (if decide (status s = StatusInitialized
                ∧ ClientTimeout (Base (rrequest s)) ≠ 0)
     then seconds (ClientTimeout (Base (rrequest s)))
     else 300000000000)
  ∧ (- 9223372036 ≤ ClientTimeout (Base (rrequest s)) ≤ 9223372036 →
     seconds (ClientTimeout (Base (rrequest s)))
     = ClientTimeout (Base (rrequest s)) * 1000000000)
  ∧ ∃ m' phase1 phase2,
      deleteExpired clock m
      = Some (m', [EvRLock] ++ phase1 ++ [EvRUnlock; EvLock]
                  ++ phase2 ++ [EvUnlock])
      ∧ (∀ e, e ∈ phase1 ++ phase2 →
           e ≠ EvRLock ∧ e ≠ EvRUnlock ∧ e ≠ EvLock ∧ e ≠ EvUnlock)
      ∧ (∀ e, e ∈ phase1 →
           (∀ src, e ≠ EvClose src) ∧ (∀ tok', e ≠ EvDelete tok'))
      ∧ match status s with
        | StatusCancelled | StatusDone | StatusTimeout =>
            m' !! tok = None
            ∧ ∃ before after,
                phase2
                = before
                  ++ match evtSource s with
                     | Some src => [EvClose src]
                     | None => []
                     end
                  ++ [EvDelete tok] ++ after
        | StatusInitialized | StatusConnected | StatusCommunicating =>
            (∃ s', m' !! tok = Some s'
                   ∧ s' = setStatus StatusTimeout
                            (markAlive (at_alive (clock tok)) s)
                   ∧ status s' = StatusTimeout
                   ∧ ResultStatus (result s') = StatusTimeout
                   ∧ prevStatus s' = status s
                   ∧ lastActive s' = at_alive (clock tok)
                   ∧ evtSource s' = evtSource s)
            ∧ ∃ before after,
                phase1
                = before
                  ++ [EvSessionLock tok; EvLog (token s) "Session expired";
                      EvMarkAlive tok (at_alive (clock tok));
                      EvSetStatus tok StatusTimeout]
                  ++ match evtSource s with
                     | Some src => [EvSignal src StatusTimeout]
                     | None => []
                     end
                  ++ [EvSessionUnlock tok] ++ after
        end.
Proof.
  intros Hm Hlt.
  assert (He : isExpired (clock tok) s = true).
  { unfold isExpired, Before, Add. by apply Z.ltb_lt. }
  split.
  { unfold sessionTimeout. destruct (decide _); reflexivity. }
  split; [apply GoTimeFacts.seconds_exact|].
  set (entries := map_to_list m).
  set (m1 := sweptMap clock entries m).
  set (ex := sweptExpired clock entries).
  exists (removedMap ex m1), (sweptTrace clock entries), (removalTrace m1 ex).
  split; [apply deleteExpired_eq|].
  split.
  { apply no_store_lock_events.
    by rewrite forallb_app, sweptTrace_no_lock, removalTrace_no_lock. }
  split; [apply sweptTrace_no_removal|].
  assert (Hin : (tok, s) ∈ entries) by by apply elem_of_map_to_list.
  assert (Hm1 : m1 !! tok = Some (visited (clock tok) s)).
  { unfold m1, entries. by rewrite sweptMap_lookup, Hm. }
  assert (Hterminal :
    Finished (status s) = true →
    removedMap ex m1 !! tok = None
    ∧ ∃ before after,
        removalTrace m1 ex
        = before
          ++ match evtSource s with
             | Some src => [EvClose src]
             | None => []
             end
          ++ [EvDelete tok] ++ after).
  { intros Hf.
    assert (Hex : tok ∈ ex) by (apply sweptExpired_elem; by exists s).
    split.
    - rewrite removedMap_lookup. by rewrite decide_True.
    - destruct (removalTrace_split m1 ex tok Hex)
        as (before & after & Hsplit).
      exists before, after. rewrite Hsplit. unfold removalOf.
      rewrite Hm1, visited_eq, Hf, andb_false_r.
      unfold closeTrace. by rewrite <- app_assoc. }
  assert (Hlive :
    Finished (status s) = false →
    (∃ s', removedMap ex m1 !! tok = Some s'
           ∧ s' = setStatus StatusTimeout
                    (markAlive (at_alive (clock tok)) s)
           ∧ status s' = StatusTimeout
           ∧ ResultStatus (result s') = StatusTimeout
           ∧ prevStatus s' = status s
           ∧ lastActive s' = at_alive (clock tok)
           ∧ evtSource s' = evtSource s)
    ∧ ∃ before after,
        sweptTrace clock entries
        = before
          ++ [EvSessionLock tok; EvLog (token s) "Session expired";
              EvMarkAlive tok (at_alive (clock tok));
              EvSetStatus tok StatusTimeout]
          ++ match evtSource s with
             | Some src => [EvSignal src StatusTimeout]
             | None => []
             end
          ++ [EvSessionUnlock tok] ++ after).
  { intros Hf. split.
    - eexists. split; [|by repeat split].
      rewrite removedMap_lookup, decide_False.
      + by rewrite Hm1, visited_eq, He, Hf.
      + intros (s0 & Hin0 & _ & Hf0)%sweptExpired_elem.
        apply elem_of_map_to_list in Hin0. congruence.
    - destruct (sweptTrace_split clock _ _ _ Hin)
        as (before & after & Hsplit).
      exists before, after. rewrite Hsplit.
      rewrite visitTrace_timeout by done.
      unfold timeoutTrace, signalTrace. cbn [markAlive with_lastActive
        evtSource]. by rewrite <- !app_assoc. }
  destruct (status s); first [by apply Hlive | by apply Hterminal].
Qed.

(** The finished session of [storeABC], which has an event source, 301
    seconds after it was last active: the pass closes the event source,
    then deletes the token, and the store no longer holds the session. *)
Lemma deleteExpired_expired_session_witness :
  ∃ m' tr, deleteExpired (clockAt 301) storeABC = Some (m', tr)
           ∧ m' !! tokB = None
           ∧ ∃ before after,
               tr = before ++ [EvClose 7%nat; EvDelete tokB] ++ after.
Proof.
  destruct (deleteExpired_expired_session (clockAt 301) storeABC
              tokB sesDone eq_refl eq_refl)
    as (_ & _ & m' & phase1 & phase2 & Heq & _ & _ & Hgone
        & before & after & Hphase2).
  exists m'. eexists. split; [exact Heq|]. split; [exact Hgone|].
  exists ([EvRLock] ++ phase1 ++ [EvRUnlock; EvLock] ++ before),
    (after ++ [EvUnlock]).
  rewrite Hphase2. cbn [evtSource sesDone mkSession].
  by rewrite <- !app_assoc.
Defined.

(** C2 (as stated, refuted). A CONNECTED session with a client timeout of
    60 seconds, last active 120 seconds ago: [lastActive] plus the client
    timeout is in the past, and the pass leaves the session as it
    was. *)
Lemma connected_session_outlives_clientTimeout :
  status sesConnected = StatusConnected
  ∧ ClientTimeout (Base (rrequest sesConnected)) = 60
  ∧ Before (Add (lastActive sesConnected) (seconds 60))
           (at_check (clockAt 120 tokC)) = true
  ∧ fst <$> deleteExpired (clockAt 120) {[tokC := sesConnected]}
    = Some {[tokC := sesConnected]}.
Proof. repeat split; vm_compute; reflexivity. Qed.

(** C2 (amended). For a session that has reached CONNECTED or
    COMMUNICATING the sweep applies the default of five minutes, whatever
    the client timeout: a pass times the session out when [lastActive]
    plus five minutes is before the time read at its test, and otherwise
    leaves it as it is. *)
Theorem connected_session_default_timeout
    clock (m : gmap string session) tok s :
  m !! tok = Some s →
  status s = StatusConnected ∨ status s = StatusCommunicating →
  sessionTimeout s = 300 * Second
  ∧ ∃ m' tr,
      deleteExpired clock m = Some (m', tr)
      ∧ m' !! tok
        = Some (if Before (Add (lastActive s) (300 * Second))
                          (at_check (clock tok))
                then setStatus StatusTimeout
                       (markAlive (at_alive (clock tok)) s)
                else s).
Proof.
  intros Hm Hst.
  assert (Hto : sessionTimeout s = 300 * Second).
  { unfold sessionTimeout. rewrite decide_False; [done|].
    intros [Hi _]. destruct Hst; congruence. }
  split; [done|].
  pose proof (deleteExpired_eq clock m) as Heq.
  eexists _, _. split; [exact Heq|].
  rewrite (deleteExpired_lookup _ _ _ _ tok Heq), Hm.
  unfold isExpired. rewrite Hto.
  destruct (Before _ _); [|done].
  by destruct Hst as [-> | ->].
Qed.

Lemma connected_session_default_timeout_witness :
  sessionTimeout sesConnected = 300 * Second.
Proof.
  apply (connected_session_default_timeout (clockAt 120) storeABC
           tokC sesConnected eq_refl (or_introl eq_refl)).
Defined.




(** C7. [get] is a pure lookup: it returns what the map holds under the
    token (nothing when the token is absent), the store after the call is
    the store before it, so no field of any session has changed, in
    particular no [lastActive], and all it does besides is to take and
    release the read lock. *)
Theorem get_pure_lookup (m : gmap string session) tok :
  ∃ m', get m tok = (m !! tok, m', [EvRLock; EvRUnlock])
        ∧ m' = m
        ∧ ∀ tok', lastActive <$> m' !! tok' = lastActive <$> m !! tok'.
Proof. exists m. by repeat split. Qed.

End SessionsSpec.

(** ** Tokens *)

Module TokenFacts.
Import GoTime Servercore.

Lemma sessionChars_length : String.length sessionChars = 62%nat.
Proof. reflexivity. Qed.

Lemma Int63_range src k : 0 ≤ Int63 src k < 2 ^ 63.
Proof.
  unfold Int63. rewrite Z.land_ones by lia.
  apply Z.mod_pos_bound. lia.
Qed.

(** On the outputs of [rand.Int63] the truncated remainder is the
    remainder of the Euclidean division. *)
Lemma charIndex_mod r : 0 ≤ r → charIndex r = r mod 62.
Proof.
  intros Hr. unfold charIndex. rewrite sessionChars_length.
  apply Z.rem_mod_nonneg; lia.
Qed.

Lemma charIndex_range r : 0 ≤ r → 0 ≤ charIndex r < 62.
Proof.
  intros Hr. rewrite charIndex_mod by done. apply Z.mod_pos_bound. lia.
Qed.

Lemma get_in (s : string) (n : nat) :
  (n < String.length s)%nat →
  ∃ c, String.get n s = Some c ∧ In c (list_ascii_of_string s).
Proof.
  revert n. induction s as [|a s IH]; intros n Hn; simpl in *; [lia|].
  destruct n as [|n].
  - exists a. split; [done|by left].
  - destruct (IH n) as (c & Hc & Hin); [lia|].
    exists c. split; [done|by right].
Qed.

Lemma sessionChars_alnum c :
  In c (list_ascii_of_string sessionChars) → isAlnum c = true.
Proof.
  revert c. apply (proj1 (forallb_forall isAlnum _)).
  vm_compute. reflexivity.
Qed.

Lemma charAt_sessionChars k :
  0 ≤ k < 62 →
  ∃ c, charAt sessionChars k = Some c ∧ isAlnum c = true.
Proof.
  intros Hk. unfold charAt. rewrite sessionChars_length.
  rewrite decide_True by lia.
  destruct (get_in sessionChars (Z.to_nat k)) as (c & Hc & Hin).
  { rewrite sessionChars_length. lia. }
  exists c. split; [done|]. by apply sessionChars_alnum.
Qed.

Lemma length_string_of_list_ascii cs :
  String.length (string_of_list_ascii cs) = length cs.
Proof. induction cs as [|c cs IH]; simpl; congruence. Qed.

(** The loop fills every byte: it never panics, and byte [i] is the
    character selected by output [calls + i]. *)
Lemma tokenBytes_spec src n calls :
  ∃ cs, tokenBytes src calls n = Some cs
        ∧ length cs = n
        ∧ (∀ i, (i < n)%nat →
             cs !! i = charAt sessionChars
                         (charIndex (Int63 src (calls + i))))
        ∧ Forall (λ c, isAlnum c = true) cs.
Proof.
  revert calls. induction n as [|n IH]; intros calls.
  - exists []. simpl. repeat split; [lia|constructor].
  - simpl.
    destruct (charAt_sessionChars (charIndex (Int63 src calls)))
      as (c & Hc & Hal).
    { apply charIndex_range, Int63_range. }
    destruct (IH (S calls)) as (cs & Hcs & Hlen & Hnth & Hall).
    rewrite Hc, Hcs. exists (c :: cs). repeat split.
    + simpl. by rewrite Hlen.
    + intros [|i] Hi; simpl.
      * by rewrite Nat.add_0_r.
      * rewrite Hnth by lia. do 3 f_equal. lia.
    + by constructor.
Qed.

(** [newSessionToken] never panics. *)
Lemma newSessionToken_total src calls :
  ∃ tok, newSessionToken src calls = Some (tok, (calls + 20)%nat).
Proof.
  destruct (tokenBytes_spec src 20 calls) as (cs & Hcs & _).
  exists (string_of_list_ascii cs). unfold newSessionToken. by rewrite Hcs.
Qed.

(** Counting the outputs below a bound that select index [k]. *)
Lemma drawsFor_closed bound k :
  0 ≤ bound → 0 ≤ k < 62 →
  Z.of_nat (drawsFor bound k) = (bound + 61 - k) `div` 62.
Proof.
  intros Hb Hk. rewrite <- (Z2Nat.id bound) by done.
  generalize (Z.to_nat bound) as n. clear bound Hb.
  unfold drawsFor. induction n as [|n IH].
  - simpl. symmetry. apply Z.div_small. lia.
  - rewrite seqZ_S, filter_app, length_app, Nat2Z.inj_add, IH.
    rewrite Z.add_0_l. rewrite filter_cons, filter_nil.
    rewrite charIndex_mod by lia.
    destruct (decide (Z.of_nat n `mod` 62 = k)) as [Heq|Hne];
      cbn [length]; rewrite Nat2Z.inj_succ; Z.div_mod_to_equations; lia.
Qed.

End TokenFacts.

(** ** Session creation *)

Module NewSessionSpec.
Import GoTime Servercore TokenFacts Examples.

Lemma get_string_of_list_ascii cs i :
  String.get i (string_of_list_ascii cs) = cs !! i.
Proof.
  revert i. induction cs as [|c cs IH]; intros [|i]; simpl; auto.
Qed.

(** C4 (as stated, refuted). Of the [2^63] outputs of [rand.Int63], the
    character ["a"] at index 0 is selected by one more output than the
    character ["9"] at index 61: outputs that are equally likely do not
    make the characters equally likely. *)
Lemma token_characters_not_uniform :
  charAt sessionChars 0 = Some "a"%char
  ∧ charAt sessionChars 61 = Some "9"%char
  ∧ Z.of_nat (drawsFor (2 ^ 63) 0) = 148764065110560901
  ∧ Z.of_nat (drawsFor (2 ^ 63) 61) = 148764065110560900.
Proof.
  split; [reflexivity|]. split; [reflexivity|].
  split; rewrite drawsFor_closed by lia; reflexivity.
Qed.

(** C4 (amended). [newSessionToken] never panics and uses 20 outputs of
    the source.  Its token is 20 characters long, every character is in
    [A-Za-z0-9], and character [i] is the character of [sessionChars] at
    the remainder modulo 62 of the [i]-th output used, so each character
    comes from an output of its own.  The remainder is not uniform: of
    the [2^63] values of an output, each of the indices 0 to 7 is
    selected by 148764065110560901 and each of the indices 8 to 61 by
    148764065110560900. *)
Theorem newSessionToken_spec (src : nat → Z) (calls : nat) :
  ∃ tok,
    newSessionToken src calls = Some (tok, (calls + 20)%nat)
    ∧ String.length tok = 20%nat
    ∧ (∀ c, In c (list_ascii_of_string tok) → isAlnum c = true)
    ∧ (∀ i, (i < 20)%nat →
         String.get i tok
         = charAt sessionChars (Int63 src (calls + i) `mod` 62))
    ∧ (∀ k, 0 ≤ k < 62 →
         Z.of_nat (drawsFor (2 ^ 63) k)
         = if k <? 8 then 148764065110560901 else 148764065110560900).
Proof.
  destruct (tokenBytes_spec src 20 calls) as (cs & Hcs & Hlen & Hnth & Hall).
  exists (string_of_list_ascii cs). unfold newSessionToken. rewrite Hcs.
  split; [done|]. split.
  { by rewrite length_string_of_list_ascii. }
  split.
  { rewrite list_ascii_of_string_of_list_ascii.
    intros c Hin. rewrite Forall_forall in Hall.
    apply Hall. by apply list_elem_of_In. }
  split.
  { intros i Hi. rewrite get_string_of_list_ascii, Hnth by done.
    rewrite charIndex_mod; [done|apply Int63_range]. }
  intros k Hk. rewrite drawsFor_closed by lia.
  destruct (k <? 8) eqn:Hk8.
  - apply Z.ltb_lt in Hk8. symmetry.
    apply Z.div_unique with (r := 69 - k - 62); lia.
  - apply Z.ltb_ge in Hk8. symmetry.
    apply Z.div_unique with (r := 69 - k); lia.
Qed.

Section NewSession.

Variable randSource : nat → Z.
Variable DefaultSystemParameters : Z → SystemParameters.
Variable RandomBigInt : Z → nat → option Z.

(** [gabi.RandomBigInt] "returns a random big integer value in the range
    [0,(2^numBits)-1], inclusive". *)
Hypothesis RandomBigInt_range :
  ∀ bits k n, RandomBigInt bits k = Some n → 0 ≤ n < 2 ^ bits.

Local Abbreviation newSession' :=
  (newSession randSource DefaultSystemParameters RandomBigInt).

(** What a call of [newSession] that returns has done. *)
Lemma newSession_inv now act req st ses st' tr :
  newSession' now act req st = Some (ses, st', tr) →
  ∃ tok r,
    newSessionToken randSource (randCalls st)
    = Some (tok, (randCalls st + 20)%nat)
    ∧ heap st !! SessionRequest req = Some r
    ∧ ses = {| action := act; rrequest := req;
               request := SessionRequest req; lastActive := now;
               token := tok; status := StatusInitialized;
               prevStatus := StatusInitialized;
               result := {| Token := tok; Type_ := act;
                            ResultStatus := StatusInitialized |};
               version := None; evtSource := None; kssProofs := ∅ |}
    ∧ st' = {| sessions := <[tok := ses]> (sessions st);
               heap := <[SessionRequest req :=
                           {| Nonce := RandomBigInt
                                (Lstatzk (DefaultSystemParameters 2048))
                                (nonceCalls st);
                              Context := Some 1 |}]> (heap st);
               randCalls := (randCalls st + 20)%nat;
               nonceCalls := S (nonceCalls st) |}.
Proof.
  unfold newSession.
  destruct (newSessionToken_total randSource (randCalls st))
    as (tok & Htok).
  rewrite Htok. cbn [request].
  destruct (heap st !! SessionRequest req) as [r|] eqn:Hr; [|done].
  intros [= <- <- <-]. by exists tok, r.
Qed.

(** C3 (amended). [newSession] takes the token that [newSessionToken]
    returns, without looking it up in the store and without a second
    try, and [add] stores the new session under it: the store holds
    at most one session for every token, the new session is the one
    under its token, whatever the store held there before, and
    what is stored under other tokens stays. *)
Theorem newSession_store now act req st ses st' tr :
  newSession randSource DefaultSystemParameters RandomBigInt
    now act req st = Some (ses, st', tr) →
  newSessionToken randSource (randCalls st)
  = Some (token ses, (randCalls st + 20)%nat)
  ∧ randCalls st' = (randCalls st + 20)%nat
  ∧ sessions st' = <[token ses := ses]> (sessions st)
  ∧ sessions st' !! token ses = Some ses
  ∧ (∀ tok, tok ≠ token ses → sessions st' !! tok = sessions st !! tok)
  ∧ (∀ tok s1 s2, sessions st' !! tok = Some s1 →
       sessions st' !! tok = Some s2 → s1 = s2).
Proof.
  intros (tok & r & Htok & Hr & -> & ->)%newSession_inv. cbn.
  split; [done|]. split; [done|]. split; [done|].
  split; [by rewrite lookup_insert_eq|].
  split; [by intros; rewrite lookup_insert_ne|].
  intros; congruence.
Qed.


End NewSession.


Lemma newSession_stLive :
  newSession zeroSource params128 countingBigInt (100 * Second)
    ActionSigning reqSubmitted stLive
  = Some (sesNew, stNew,
          [EvLog tokA "New session started"; EvLock; EvUnlock]).
Proof. vm_compute. reflexivity. Qed.

(** C3 (as stated, refuted). The store holds a session that a client has
    fetched, under [tokA]; the source makes [newSessionToken] return
    [tokA] again.  [newSession] returns a session with that token, and
    the store now holds the new session under [tokA]: the live one has
    been overwritten. *)
Lemma newSession_overwrites_live_session :
  sessions stLive !! tokA = Some sesLive
  ∧ Finished (status sesLive) = false
  ∧ newSessionToken zeroSource (randCalls stLive) = Some (tokA, 20%nat)
  ∧ fst <$> newSession zeroSource params128 countingBigInt (100 * Second)
              ActionSigning reqSubmitted stLive
    = Some (sesNew, stNew)
  ∧ sessions stNew !! tokA = Some sesNew
  ∧ sesNew ≠ sesLive.
Proof.
  split; [reflexivity|]. split; [reflexivity|].
  split; [vm_compute; reflexivity|].
  split; [by rewrite newSession_stLive|].
  split; [reflexivity|].
  intros H. apply (f_equal status) in H. discriminate H.
Qed.

Lemma newSession_store_witness :
  sessions stNew = <[token sesNew := sesNew]> (sessions stLive).
Proof.
  apply (newSession_store zeroSource params128 countingBigInt
           (100 * Second) ActionSigning reqSubmitted stLive sesNew stNew
           _ newSession_stLive).
Defined.


End NewSessionSpec.

(** ** The HTTP transport *)

Module TransportSpec.
Import Irmago TransportExamples.

Section Transport.

Variable Value : Type.
Variable jsonMarshal : Value → string + string.
Variable unmarshalApiError : string → ApiError → ApiError.
Variable jsonUnmarshal : string → Value → Value * option string.
Variable unmarshalNilError : string → string.
Variable CanonicalMIMEHeaderKey : string → string.
Variable newRequestError : string → string → option string.
Variable clientDo : Request → string + Response.

(** The two names that [request] sets are in canonical form. *)
Hypothesis canonical_User_Agent :
  CanonicalMIMEHeaderKey "User-Agent" = "User-Agent".
Hypothesis canonical_Content_Type :
  CanonicalMIMEHeaderKey "Content-Type" = "Content-Type".

Local Abbreviation request' :=
  (request Value jsonMarshal unmarshalApiError jsonUnmarshal
     unmarshalNilError CanonicalMIMEHeaderKey newRequestError clientDo).

Local Abbreviation requestHeaders' :=
  (requestHeaders Value CanonicalMIMEHeaderKey).

(** A call that gave a request to [client.Do]: the request, and what
    became of the response. *)
Lemma request_sent transport url method result object err result' req :
  request' transport url method result object
  = Return Value err result' (Some req) →
  ReqHeader req = requestHeaders' transport object
  ∧ Method req = method
  ∧ match clientDo req with
    | inl e =>
        err = Some (mkError ErrorTransport (Some e) None 0)
        ∧ result' = result
    | inr res =>
        if decide (method = MethodDelete)
        then err = None ∧ result' = result
        else (err, result')
             = handleResponse Value unmarshalApiError jsonUnmarshal
                 unmarshalNilError res result
    end.
Proof.
  unfold request.
  destruct (decide _); [done|]. destruct (_ && _); [done|].
  destruct (bodyReader _ _ _) as [e|reader]; [done|].
  destruct (newRequestError _ _); [done|].
  match goal with |- context [clientDo ?r] => set (built := r) end.
  destruct (clientDo built) as [e|res] eqn:Hdo.
  - intros [= <- <- <-]. by rewrite Hdo.
  - destruct (decide (method = MethodDelete)) as [Hd|Hd].
    + intros [= <- <- <-]. by rewrite Hdo.
    + destruct (handleResponse _ _ _ _ _ _) as [err0 result0] eqn:Hh.
      intros [= <- <- <-]. by rewrite Hdo.
Qed.

(** C8. For a GET or POST that got a response whose status is not 200,
    [request] returns an error and leaves the caller's result as it
    was.  The error carries the status of the response.  When the body
    was read and its decoding as an [ApiError] has a name, the error is
    of type [api] and carries that [ApiError]; otherwise, with an empty
    name or a body that could not be read, it is of type
    [serverResponse] and carries none. *)
Theorem request_non200
    transport url method result object err result' req res :
  request Value jsonMarshal unmarshalApiError jsonUnmarshal
    unmarshalNilError CanonicalMIMEHeaderKey newRequestError clientDo
    transport url method result object
  = Return Value err result' (Some req) →
  clientDo req = inr res →
  method = MethodGet ∨ method = MethodPost →
  StatusCode res ≠ 200 →
  result' = result
  ∧ ∃ e, err = Some e
         ∧ Status e = StatusCode res
         ∧ match Body res with
           | inr body =>
               if decide (ErrorName (unmarshalApiError body emptyApiError)
                          = "")
               then ErrType e = ErrorServerResponse ∧ ApiErr e = None
               else ErrType e = ErrorApi
                    ∧ ApiErr e
                      = Some (unmarshalApiError body emptyApiError)
           | inl _ => ErrType e = ErrorServerResponse ∧ ApiErr e = None
           end.
Proof.
  intros (_ & _ & Hres)%request_sent Hdo Hm Hst.
  rewrite Hdo in Hres. rewrite decide_False in Hres.
  2:{ destruct Hm as [-> | ->]; discriminate. }
  unfold handleResponse in Hres.
  destruct (Body res) as [e|body].
  - injection Hres as -> ->. split; [done|]. by eexists.
  - rewrite decide_True in Hres by done.
    destruct (decide (ErrorName _ = "")); injection Hres as -> ->;
      (split; [done|]); by eexists.
Qed.

(** The headers after the transport's own headers have been set. *)
Lemma setCustomHeaders_other custom (h : gmap string string) key :
  (∀ nv, nv ∈ custom → CanonicalMIMEHeaderKey nv.1 ≠ key) →
  setCustomHeaders CanonicalMIMEHeaderKey custom h !! key = h !! key.
Proof.
  revert h. induction custom as [|nv rest IH]; intros h Hall; [done|].
  unfold setCustomHeaders in *. simpl. rewrite IH.
  - unfold HeaderSet. apply lookup_insert_ne. apply Hall. left.
  - intros nv' Hin. apply Hall. by right.
Qed.

Lemma setCustomHeaders_named custom (h : gmap string string) key :
  (∃ nv, nv ∈ custom ∧ CanonicalMIMEHeaderKey nv.1 = key) →
  ∃ nv, nv ∈ custom ∧ CanonicalMIMEHeaderKey nv.1 = key
        ∧ setCustomHeaders CanonicalMIMEHeaderKey custom h !! key
          = Some nv.2.
Proof.
  induction custom as [|last front IH] using rev_ind.
  { by intros (? & ?%elem_of_nil & _). }
  intros (nv & Hin & Hkey).
  unfold setCustomHeaders in *. rewrite foldl_app. simpl.
  unfold HeaderSet at 1.
  destruct (decide (CanonicalMIMEHeaderKey last.1 = key)) as [Hl|Hl].
  - exists last. split; [apply elem_of_app; right; left|].
    split; [done|]. rewrite Hl. apply lookup_insert_eq.
  - apply elem_of_app in Hin as [Hin|Hin].
    + destruct IH as (nv' & Hin' & Hkey' & Hlook); [by exists nv|].
      exists nv'. split; [apply elem_of_app; by left|].
      split; [done|]. by rewrite lookup_insert_ne.
    + apply list_elem_of_singleton in Hin as ->. done.
Qed.

(** C9 (amended). Every request that [request] gives to [client.Do]
    carries [User-Agent: irmago], unless one of the transport's own
    headers has that name.  Its [Content-Type] is
    [text/plain; charset=UTF-8] when the object is a string,
    [application/json; charset=UTF-8] when it is another value, and
    absent when there is no object, unless one of the transport's own
    headers has that name.  A header of the transport itself always
    reaches the request, under its canonical name. *)
Theorem request_headers
    transport url method result object err result' req :
  request Value jsonMarshal unmarshalApiError jsonUnmarshal
    unmarshalNilError CanonicalMIMEHeaderKey newRequestError clientDo
    transport url method result object
  = Return Value err result' (Some req) →
  ((∀ name val, headers transport !! name = Some val →
      CanonicalMIMEHeaderKey name ≠ "User-Agent") →
   ReqHeader req !! "User-Agent" = Some "irmago")
  ∧ ((∀ name val, headers transport !! name = Some val →
        CanonicalMIMEHeaderKey name ≠ "Content-Type") →
     ReqHeader req !! "Content-Type"
     = match object with
       | ObjNil _ => None
       | ObjString _ _ => Some "text/plain; charset=UTF-8"
       | ObjValue _ _ => Some "application/json; charset=UTF-8"
       end)
  ∧ (∀ name val, headers transport !! name = Some val →
       ∃ name' val',
         headers transport !! name' = Some val'
         ∧ CanonicalMIMEHeaderKey name' = CanonicalMIMEHeaderKey name
         ∧ ReqHeader req !! CanonicalMIMEHeaderKey name = Some val').
Proof.
  intros (-> & _ & _)%request_sent. unfold requestHeaders.
  split; [|split].
  - intros Hnone. rewrite setCustomHeaders_other.
    + unfold HeaderSet.
      rewrite canonical_User_Agent, canonical_Content_Type.
      destruct object; by simplify_map_eq.
    + intros [name val] Hin%elem_of_map_to_list. by eapply Hnone.
  - intros Hnone. rewrite setCustomHeaders_other.
    + unfold HeaderSet.
      rewrite canonical_User_Agent, canonical_Content_Type.
      destruct object; by simplify_map_eq.
    + intros [name val] Hin%elem_of_map_to_list. by eapply Hnone.
  - intros name val Hname.
    edestruct setCustomHeaders_named as ([name' val'] & Hin & Hkey & Hlook).
    { exists (name, val). split; [by apply elem_of_map_to_list|done]. }
    exists name', val'. split; [by apply elem_of_map_to_list in Hin|].
    split; [done|]. exact Hlook.
Qed.

(** C10. A DELETE that got a response returns nil and leaves the
    caller's result as it was, whatever the status and the body of the
    response.  The only errors a DELETE can return are those of
    marshalling the object and of sending the request, never one of type
    [api] or [serverResponse]; and [Delete], which drops what [request]
    returns, does not panic. *)
Theorem delete_ignores_response transport url result object :
  (∀ err result' req res,
     request Value jsonMarshal unmarshalApiError jsonUnmarshal
    unmarshalNilError CanonicalMIMEHeaderKey newRequestError clientDo
    transport url MethodDelete result object
     = Return Value err result' (Some req) →
     clientDo req = inr res →
     err = None ∧ result' = result)
  ∧ (∀ err result' sent e,
       request Value jsonMarshal unmarshalApiError jsonUnmarshal
    unmarshalNilError CanonicalMIMEHeaderKey newRequestError clientDo
    transport url MethodDelete result object
       = Return Value err result' sent →
       err = Some e →
       (ErrType e = ErrorTransport ∨ ErrType e = ErrorSerialization)
       ∧ ErrType e ≠ ErrorApi ∧ ErrType e ≠ ErrorServerResponse)
  ∧ ∃ sent,
      Delete Value jsonMarshal unmarshalApiError jsonUnmarshal
        unmarshalNilError CanonicalMIMEHeaderKey newRequestError clientDo
        transport
      = inr sent.
Proof.
  split; [|split].
  - intros err result' req res (_ & _ & Hres)%request_sent Hdo.
    rewrite Hdo in Hres. by rewrite decide_True in Hres.
  - intros err result' sent e Hreq ->. revert Hreq. unfold request.
    destruct (decide _); [done|]. destruct (_ && _); [done|].
    destruct (bodyReader _ _ _); [intros [= <- _ _]; by auto|].
    destruct (newRequestError _ _); [intros [= <- _ _]; by auto|].
    destruct (clientDo _); [intros [= <- _ _]; by auto|].
    by rewrite decide_True.
  - unfold Delete, request.
    rewrite decide_False by (intros (_ & _ & ?); done).
    simpl. destruct (newRequestError _ _); [by eexists|].
    destruct (clientDo _); by eexists.
Qed.

End Transport.

(** [Get] on [exTransport], with a server that answers 400 and an error
    message. *)
Lemma get_status_400 :
  Get unit marshalUnit decodeApiError decodeUnit nilTargetError
    canonicalKey noRequestError serverSays400 exTransport "status"
    (ResString unit "before")
  = Return unit
      (Some (mkError ErrorApi None (Some apiUnknownSession) 400))
      (ResString unit "before") (Some exGetRequest).
Proof. vm_compute. reflexivity. Qed.

Lemma request_non200_witness :
  ∃ e, Some (mkError ErrorApi None (Some apiUnknownSession) 400) = Some e
       ∧ Status e = 400.
Proof.
  destruct (request_non200 unit marshalUnit decodeApiError decodeUnit
              nilTargetError canonicalKey noRequestError serverSays400
              exTransport "status" MethodGet (ResString unit "before")
              (ObjNil unit) _ _ exGetRequest
              {| StatusCode := 400; Body := inr bodyUnknownSession |}
              get_status_400 eq_refl (or_introl eq_refl))
    as (_ & e & He & Hst & _).
  - vm_compute. discriminate.
  - exists e. split; [exact He|exact Hst].
Defined.

(** C9 (as stated, refuted). The request that a [Get] on a transport
    without headers of its own gives to [client.Do] has the user agent
    [irmago], not [irmaserver]. *)
Lemma request_user_agent_is_irmago :
  (∃ err result',
     Get unit marshalUnit decodeApiError decodeUnit nilTargetError
       canonicalKey noRequestError serverSays400 exTransport "status"
       (ResString unit "before")
     = Return unit err result' (Some exGetRequest))
  ∧ ReqHeader exGetRequest !! "User-Agent" = Some "irmago"
  ∧ ReqHeader exGetRequest !! "User-Agent" ≠ Some "irmaserver".
Proof.
  split; [eexists _, _; apply get_status_400|].
  split; [reflexivity|]. vm_compute. discriminate.
Qed.

Lemma request_headers_witness :
  ReqHeader exGetRequest !! "User-Agent" = Some "irmago".
Proof.
  destruct (request_headers unit marshalUnit decodeApiError decodeUnit
              nilTargetError canonicalKey noRequestError serverSays400
              eq_refl eq_refl
              exTransport "status" MethodGet (ResString unit "before")
              (ObjNil unit) _ _ exGetRequest get_status_400)
    as (Hua & _).
  apply Hua. intros name val Hlook. vm_compute in Hlook. discriminate.
Defined.

End TransportSpec.

(** ** More on the store and the sweep *)

Module StoreSpec.
Import GoTime Servercore SweepFacts TokenFacts Examples.

(** X1. [add] followed by [get]: the token just added yields the session
    that was added, every other token yields what it yielded before, and
    adding under a token that is in use leaves only the session added
    last. *)
Theorem add_then_get (m : gmap string session) tok s tok' s0 :
  (get (add m tok s).1 tok').1.1
  = (if decide (tok = tok') then Some s else m !! tok')
  ∧ (add (add m tok s0).1 tok s).1 = (add m tok s).1.
Proof.
  unfold get, add. cbn. split.
  - apply lookup_insert.
  - apply insert_insert_eq.
Qed.

Lemma sweptExpired_nil clock entries :
  (∀ tok s, (tok, s) ∈ entries → isExpired (clock tok) s = false) →
  sweptExpired clock entries = [].
Proof.
  intros Hnone. destruct (sweptExpired clock entries) as [|tok l] eqn:Hl;
    [done|].
  assert (Hin : tok ∈ sweptExpired clock entries) by (rewrite Hl; left).
  apply sweptExpired_elem in Hin as (s & Hin & He & _).
  rewrite (Hnone _ _ Hin) in He. done.
Qed.

Lemma sweptTrace_nothing_expired clock entries :
  (∀ tok s, (tok, s) ∈ entries → isExpired (clock tok) s = false) →
  forallb (λ e, negb (isEffect e)) (sweptTrace clock entries) = true.
Proof.
  induction entries as [|[tok s] rest IH]; intros Hnone; [done|].
  unfold sweptTrace in *. simpl. rewrite forallb_app, IH.
  - rewrite andb_true_r. unfold visitTrace, sweepBody.
    pose proof (Hnone tok s ltac:(left)) as He. unfold isExpired in He.
    by rewrite He.
  - intros tok' s' Hin. apply Hnone. by right.
Qed.

(** X2. A pass in which no session has expired leaves the store exactly
    as it was, and its trace holds no [markAlive], no [setStatus], no
    signal, no close and no delete. *)
Theorem deleteExpired_nothing_expired clock (m : gmap string session) :
  (∀ tok s, m !! tok = Some s → isExpired (clock tok) s = false) →
  ∃ tr, deleteExpired clock m = Some (m, tr)
        ∧ forallb (λ e, negb (isEffect e)) tr = true.
Proof.
  intros Hnone.
  assert (Hnone' : ∀ tok s, (tok, s) ∈ map_to_list m →
                            isExpired (clock tok) s = false).
  { intros tok s Hin. apply Hnone. by apply elem_of_map_to_list. }
  pose proof (deleteExpired_eq clock m) as Heq.
  rewrite (sweptExpired_nil _ _ Hnone') in Heq. cbn [removedMap foldl] in Heq.
  eexists. split.
  - rewrite Heq. do 2 f_equal. apply map_eq. intros tok.
    rewrite sweptMap_lookup.
    destruct (m !! tok) as [s|] eqn:Hm; [|done]. simpl.
    by rewrite visited_eq, (Hnone _ _ Hm).
  - cbn. rewrite forallb_app, sweptTrace_nothing_expired by done. done.
Qed.

Lemma deleteExpired_nothing_expired_witness :
  ∃ tr, deleteExpired (clockAt 120) storeABC = Some (storeABC, tr).
Proof.
  destruct (deleteExpired_nothing_expired (clockAt 120) storeABC)
    as (tr & Heq & _).
  - intros tok s Hs. unfold storeABC in Hs.
    apply lookup_insert_Some in Hs as [[<- <-]|[_ Hs]]; [reflexivity|].
    apply lookup_insert_Some in Hs as [[<- <-]|[_ Hs]]; [reflexivity|].
    apply lookup_singleton_Some in Hs as [<- <-]. reflexivity.
  - by exists tr.
Defined.

(** X3. A pass always returns, adds nothing and removes nothing but
    expired sessions in a terminal state: a token absent before is
    absent after, every session the store holds after the pass was
    stored under its token before, and a token whose session is gone
    after the pass held a session that was CANCELLED, DONE or TIMEOUT
    and whose [lastActive] plus timeout was before the time of its
    test. *)
Theorem deleteExpired_removes_only_finished
    clock (m : gmap string session) :
  ∃ m' tr,
    deleteExpired clock m = Some (m', tr)
    ∧ (∀ tok, m !! tok = None → m' !! tok = None)
    ∧ (∀ tok s', m' !! tok = Some s' → ∃ s, m !! tok = Some s)
    ∧ ∀ tok s,
        m !! tok = Some s →
        m' !! tok = None →
        (status s = StatusCancelled ∨ status s = StatusDone
         ∨ status s = StatusTimeout)
        ∧ lastActive s + sessionTimeout s < at_check (clock tok).
Proof.
  pose proof (deleteExpired_eq clock m) as Heq.
  eexists _, _. split; [exact Heq|].
  split; [|split].
  - intros tok Hm. by rewrite (deleteExpired_lookup _ _ _ _ tok Heq), Hm.
  - intros tok s'. rewrite (deleteExpired_lookup _ _ _ _ tok Heq).
    destruct (m !! tok) as [s|]; [by eexists|done].
  - intros tok s Hm. rewrite (deleteExpired_lookup _ _ _ _ tok Heq), Hm.
    unfold isExpired, Before, Add.
    destruct (Z.ltb_spec (lastActive s + sessionTimeout s)
                (at_check (clock tok))); [|done].
    destruct (status s); cbn; intros; try done; by auto.
Qed.

(** X4. Two passes. A session that is not in a terminal state and has
    expired at the first pass is timed out by it and kept; the second
    pass removes it when the time [markAlive] set at the first pass plus
    five minutes is before the time read at its test, and otherwise
    leaves it as the first pass left it. *)
Theorem timed_out_session_second_pass
    clock1 clock2 (m : gmap string session) tok s :
  m !! tok = Some s →
  Finished (status s) = false →
  Before (Add (lastActive s) (sessionTimeout s)) (at_check (clock1 tok))
  = true →
  ∃ m1 tr1 m2 tr2,
    deleteExpired clock1 m = Some (m1, tr1)
    ∧ deleteExpired clock2 m1 = Some (m2, tr2)
    ∧ m1 !! tok
      = Some (setStatus StatusTimeout (markAlive (at_alive (clock1 tok)) s))
    ∧ m2 !! tok
      = if Before (Add (at_alive (clock1 tok)) (5 * Minute))
                  (at_check (clock2 tok))
        then None
        else Some (setStatus StatusTimeout
                     (markAlive (at_alive (clock1 tok)) s)).
Proof.
  intros Hm Hf He.
  pose proof (deleteExpired_eq clock1 m) as Heq1.
  eexists _, _. 
  pose proof (deleteExpired_lookup _ _ _ _ tok Heq1) as Hl1.
  rewrite Hm in Hl1. unfold isExpired in Hl1. rewrite He, Hf in Hl1.
  match type of Heq1 with _ = Some (?m1, _) =>
    pose proof (deleteExpired_eq clock2 m1) as Heq2 end.
  eexists _, _. split; [exact Heq1|]. split; [exact Heq2|].
  split; [exact Hl1|].
  rewrite (deleteExpired_lookup _ _ _ _ tok Heq2), Hl1.
  unfold isExpired. cbn. done.
Qed.

Lemma timed_out_session_second_pass_witness :
  ∃ m1 m2,
    fst <$> deleteExpired (clockAt 301) storeABC = Some m1
    ∧ fst <$> deleteExpired (clockAt 602) m1 = Some m2
    ∧ m2 !! tokA = None.
Proof.
  destruct (timed_out_session_second_pass (clockAt 301) (clockAt 602)
              storeABC tokA sesInitialized eq_refl eq_refl eq_refl)
    as (m1 & tr1 & m2 & tr2 & H1 & H2 & _ & Hgone).
  exists m1, m2. rewrite H1, H2. split; [done|]. split; [done|].
  exact Hgone.
Defined.

Lemma lockRun_app st tr1 tr2 :
  lockRun st (tr1 ++ tr2)
  = match lockRun st tr1 with
    | Some st' => lockRun st' tr2
    | None => None
    end.
Proof.
  revert st. induction tr1 as [|e tr1 IH]; intros st; [done|].
  simpl. destruct (lockStep st e); [apply IH|done].
Qed.

Lemma lockRun_visitTrace r tok s :
  lockRun readLocked (visitTrace r tok s) = Some readLocked.
Proof.
  unfold visitTrace, sweepBody, readLocked, signalTrace.
  destruct (Before _ _); [destruct (negb _)|]; cbn;
    [destruct (evtSource s); cbn| |];
    repeat (first [rewrite decide_True by done | progress cbn]); done.
Qed.

Lemma lockRun_sweptTrace clock entries :
  lockRun readLocked (sweptTrace clock entries) = Some readLocked.
Proof.
  induction entries as [|e rest IH]; [done|].
  unfold sweptTrace in *. simpl.
  by rewrite lockRun_app, lockRun_visitTrace.
Qed.

Lemma lockRun_removalTrace m expired :
  lockRun writeLocked (removalTrace m expired) = Some writeLocked.
Proof.
  induction expired as [|tok rest IH]; [done|].
  unfold removalTrace in *. simpl. rewrite lockRun_app.
  unfold removalOf at 1. destruct (m !! tok) as [s|]; [|done].
  unfold closeTrace. by destruct (evtSource s).
Qed.

(** X5. The locking discipline inside a pass.  [deleteExpired] has a
    value receiver, so the mutex it locks is the one of its receiver, a
    copy of the store's.  On that mutex and the mutexes of the sessions
    its trace starts and ends with no lock held; a session's lock is
    taken only under the read lock and is released before the next one
    is taken; [markAlive] and [setStatus] happen under the lock of their
    session; event sources are closed and tokens deleted only under the
    write lock, when no session's lock is held. *)
Theorem deleteExpired_lock_discipline clock (m : gmap string session) :
  ∃ m' tr, deleteExpired clock m = Some (m', tr)
           ∧ lockRun noLocks tr = Some noLocks.
Proof.
  eexists _, _. split; [apply deleteExpired_eq|].
  cbn [app lockRun lockStep noLocks ls_store ls_session].
  fold readLocked. rewrite lockRun_app, lockRun_sweptTrace.
  cbn [app lockRun lockStep readLocked noLocks ls_store ls_session].
  fold writeLocked. by rewrite lockRun_app, lockRun_removalTrace.
Qed.

(** X6. A pass keeps every session under its own token: when every
    session of the store carries the token it is stored under, the same
    holds after [deleteExpired]. *)
Theorem deleteExpired_keysMatch clock (m : gmap string session) m' tr :
  keysMatch m →
  deleteExpired clock m = Some (m', tr) →
  keysMatch m'.
Proof.
  intros Hk Heq tok s' Hs'.
  rewrite (deleteExpired_lookup _ _ _ _ tok Heq) in Hs'.
  destruct (m !! tok) as [s|] eqn:Hm; [|done].
  apply Hk in Hm.
  destruct (isExpired _ _); [destruct (Finished _); [done|]|];
    by injection Hs' as <-.
Qed.

Lemma keysMatch_storeABC : keysMatch storeABC.
Proof.
  intros tok s Hs. unfold storeABC in Hs.
  apply lookup_insert_Some in Hs as [[<- <-]|[_ Hs]]; [reflexivity|].
  apply lookup_insert_Some in Hs as [[<- <-]|[_ Hs]]; [reflexivity|].
  apply lookup_singleton_Some in Hs as [<- <-]. reflexivity.
Defined.

Lemma deleteExpired_keysMatch_witness :
  ∃ m', fst <$> deleteExpired (clockAt 301) storeABC = Some m'
        ∧ keysMatch m'.
Proof.
  destruct (deleteExpired (clockAt 301) storeABC) as [[m' tr]|] eqn:Heq.
  - exists m'. split; [reflexivity|].
    exact (deleteExpired_keysMatch (clockAt 301) storeABC m' tr
             keysMatch_storeABC Heq).
  - exfalso. rewrite deleteExpired_eq in Heq. discriminate Heq.
Defined.

(** X7. An overflowing client timeout. For a session that is INITIALIZED
    with a client timeout between 9223372037 and 18446744073 seconds the
    product with [time.Second] wraps around to a negative duration:
    the session has expired at every test whose time is not before its
    [lastActive], and a pass then times it out. *)
Theorem overflowing_clientTimeout_expires
    clock (m : gmap string session) tok s :
  m !! tok = Some s →
  status s = StatusInitialized →
  9223372037 ≤ ClientTimeout (Base (rrequest s)) ≤ 18446744073 →
  lastActive s ≤ at_check (clock tok) →
  sessionTimeout s < 0
  ∧ ∃ m' tr,
      deleteExpired clock m = Some (m', tr)
      ∧ m' !! tok
        = Some (setStatus StatusTimeout
                  (markAlive (at_alive (clock tok)) s)).
Proof.
  intros Hm Hst Hct Hla.
  assert (Hto : sessionTimeout s < 0).
  { unfold sessionTimeout. rewrite decide_True by (split; [done|lia]).
    unfold seconds, wrap64, Second.
    set (ct := ClientTimeout (Base (rrequest s))) in *.
    replace ((ct * 1000000000 + 2 ^ 63) `mod` 2 ^ 64)
      with (ct * 1000000000 + 2 ^ 63 - 2 ^ 64); [lia|].
    apply Z.mod_unique with (q := 1); lia. }
  split; [done|].
  pose proof (deleteExpired_eq clock m) as Heq.
  eexists _, _. split; [exact Heq|].
  rewrite (deleteExpired_lookup _ _ _ _ tok Heq), Hm.
  unfold isExpired, Before, Add.
  destruct (Z.ltb_spec (lastActive s + sessionTimeout s)
              (at_check (clock tok))); [|lia].
  by rewrite Hst.
Qed.

Lemma overflowing_clientTimeout_expires_witness :
  sessionTimeout (mkSession tokA StatusInitialized 9223372037 0 None) < 0.
Proof.
  apply (overflowing_clientTimeout_expires (clockAt 1)
           {[tokA := mkSession tokA StatusInitialized 9223372037 0 None]}
           tokA (mkSession tokA StatusInitialized 9223372037 0 None)
           (lookup_singleton_eq _ _) eq_refl).
  - split; vm_compute; discriminate.
  - vm_compute. discriminate.
Defined.

End StoreSpec.

(** ** More on session creation *)

Module CreationSpec.
Import GoTime Servercore SweepFacts TokenFacts NewSessionSpec Examples.

(** X8. [newSession] keeps every session under its own token: when every
    session of the store carries the token it is stored under, the same
    holds after [newSession]; the new session carries the same token in
    its result, and that token has 20 characters. *)
Theorem newSession_keysMatch src dsp rbi now act req st ses st' tr :
  newSession src dsp rbi now act req st = Some (ses, st', tr) →
  keysMatch (sessions st) →
  keysMatch (sessions st')
  ∧ Token (result ses) = token ses
  ∧ String.length (token ses) = 20%nat.
Proof.
  intros (tok & r & Htok & Hr & -> & ->)%newSession_inv Hk. cbn.
  split; [|split; [done|]].
  - intros tok' s' Hs'.
    apply lookup_insert_Some in Hs' as [[<- <-]|[_ Hs']]; [done|].
    by apply Hk.
  - unfold newSessionToken in Htok.
    destruct (tokenBytes_spec src 20 (randCalls st)) as (cs & Hcs & Hlen & _).
    rewrite Hcs in Htok. injection Htok as <-.
    by rewrite length_string_of_list_ascii.
Qed.

Lemma keysMatch_stLive : keysMatch (sessions stLive).
Proof.
  intros tok s Hs. cbn in Hs.
  apply lookup_singleton_Some in Hs as [<- <-]. reflexivity.
Defined.

Lemma newSession_keysMatch_witness : keysMatch (sessions stNew).
Proof.
  apply (newSession_keysMatch zeroSource params128 countingBigInt
           (100 * Second) ActionSigning reqSubmitted stLive sesNew stNew _
           newSession_stLive keysMatch_stLive).
Defined.



Lemma indexOfChar_get c s n :
  indexOfChar c s = Some n →
  String.get n s = Some c ∧ (n < String.length s)%nat.
Proof.
  revert n. induction s as [|a s IH]; intros n; simpl; [done|].
  destruct (Ascii.eqb_spec a c) as [->|Hne].
  - intros [= <-]. split; [done|lia].
  - destruct (indexOfChar c s) as [k|]; [|done].
    intros [= <-]. destruct (IH k eq_refl) as [Hget Hlt]. split; [done|lia].
Qed.

Lemma alnum_in_sessionChars c :
  isAlnum c = true → ∃ n, indexOfChar c sessionChars = Some n.
Proof.
  destruct c as [[] [] [] [] [] [] [] []]; vm_compute;
    intros H; try discriminate H; eexists; reflexivity.
Qed.

Lemma tokenBytes_chosen src cs calls :
  (∀ i c, cs !! i = Some c →
     ∃ n, indexOfChar c sessionChars = Some n
          ∧ src (calls + i)%nat = Z.of_nat n) →
  tokenBytes src calls (length cs) = Some cs.
Proof.
  revert calls. induction cs as [|c cs IH]; intros calls Hsrc; [done|].
  simpl. destruct (Hsrc 0%nat c eq_refl) as (n & Hn & Hs).
  apply indexOfChar_get in Hn as [Hget Hlt].
  rewrite sessionChars_length in Hlt. rewrite Nat.add_0_r in Hs.
  assert (Hidx : charIndex (Int63 src calls) = Z.of_nat n).
  { unfold Int63. rewrite Hs, Z.land_ones by lia.
    rewrite Z.mod_small by lia. rewrite charIndex_mod by lia.
    apply Z.mod_small. lia. }
  rewrite Hidx. unfold charAt. rewrite sessionChars_length.
  rewrite decide_True by lia. rewrite Nat2Z.id, Hget.
  rewrite IH; [done|].
  intros i c' Hc'. destruct (Hsrc (S i) c' Hc') as (k & Hk & Hsk).
  exists k. split; [done|]. rewrite <- Hsk. f_equal. lia.
Qed.

(** X10. Every string of 20 characters from [A-Za-z0-9] is a token that
    [newSessionToken] can return: some outputs of the source make it
    return exactly that string. *)
Theorem every_token_can_be_drawn (tok : string) (calls : nat) :
  String.length tok = 20%nat →
  (∀ c, In c (list_ascii_of_string tok) → isAlnum c = true) →
  newSessionToken (sourceFor calls (list_ascii_of_string tok)) calls
  = Some (tok, (calls + 20)%nat).
Proof.
  intros Hlen Hal. unfold newSessionToken.
  assert (Hl : length (list_ascii_of_string tok) = 20%nat).
  { rewrite <- Hlen. clear. induction tok as [|a tok IH]; simpl; congruence. }
  rewrite <- Hl at 1. rewrite tokenBytes_chosen.
  - by rewrite string_of_list_ascii_of_string.
  - intros i c Hc.
    destruct (alnum_in_sessionChars c) as (n & Hn).
    { apply Hal. apply list_elem_of_In. by eapply list_elem_of_lookup_2. }
    exists n. split; [done|]. unfold sourceFor.
    replace (calls + i - calls)%nat with i by lia.
    rewrite Hc.
    change (Some c ≫= λ c, indexOfChar c sessionChars)
      with (indexOfChar c sessionChars).
    by rewrite Hn.
Qed.

Lemma every_token_can_be_drawn_witness :
  newSessionToken (sourceFor 7 (list_ascii_of_string "Zz9Yy8Xx7Ww6Vv5Uu4Tt"))
    7
  = Some ("Zz9Yy8Xx7Ww6Vv5Uu4Tt", 27%nat).
Proof.
  apply (every_token_can_be_drawn "Zz9Yy8Xx7Ww6Vv5Uu4Tt" 7 eq_refl).
  intros c Hin. apply sessionChars_alnum.
  repeat (destruct Hin as [<-|Hin]; [vm_compute; tauto|]).
  destruct Hin.
Defined.

End CreationSpec.

(** ** More on the HTTP transport *)

Module TransportMore.
Import Irmago TransportExamples TransportSpec.

Lemma HasSuffix_cons a t :
  (1 ≤ String.length t)%nat →
  HasSuffix (String a t) "/" = HasSuffix t "/".
Proof.
  intros Ht. unfold HasSuffix.
  change (String.length "/") with 1%nat.
  change (String.length (String a t)) with (S (String.length t)).
  replace (S (String.length t) - 1)%nat
    with (S (String.length t - 1))%nat by lia.
  cbn [substring].
  destruct (String.length t) as [|n] eqn:Hn; [lia|]. done.
Qed.

Lemma length_append_slash s :
  String.length (String.append s "/") = S (String.length s).
Proof. induction s as [|a s IH]; simpl; congruence. Qed.

Lemma HasSuffix_append_slash s : HasSuffix (String.append s "/") "/" = true.
Proof.
  induction s as [|a s IH]; [done|].
  change (String.append (String a s) "/")
    with (String a (String.append s "/")).
  rewrite HasSuffix_cons; [done|]. rewrite length_append_slash. lia.
Qed.

(** X11. [NewHTTPTransport] normalizes the server URL: the [Server] of
    the transport always ends in a slash; a URL that ends in a slash is
    kept as it is and any other gets exactly one slash appended, the
    empty URL included; the transport starts without headers of its own;
    and making a transport from the [Server] of a transport changes
    nothing. *)
Theorem NewHTTPTransport_slash (serverURL : string) :
  HasSuffix (Server (NewHTTPTransport serverURL)) "/" = true
  ∧ Server (NewHTTPTransport serverURL)
    = (if HasSuffix serverURL "/" then serverURL
       else String.append serverURL "/")
  ∧ headers (NewHTTPTransport serverURL) = ∅
  ∧ NewHTTPTransport (Server (NewHTTPTransport serverURL))
    = NewHTTPTransport serverURL.
Proof.
  unfold NewHTTPTransport. cbn [Server headers].
  destruct (HasSuffix serverURL "/") eqn:Hs; cbn [negb].
  - by rewrite Hs.
  - by rewrite HasSuffix_append_slash.
Qed.

Section Transport.

Variable Value : Type.
Variable jsonMarshal : Value → string + string.
Variable unmarshalApiError : string → ApiError → ApiError.
Variable jsonUnmarshal : string → Value → Value * option string.
Variable unmarshalNilError : string → string.
Variable CanonicalMIMEHeaderKey : string → string.
Variable newRequestError : string → string → option string.
Variable clientDo : Request → string + Response.

Local Abbreviation request' :=
  (request Value jsonMarshal unmarshalApiError jsonUnmarshal
     unmarshalNilError CanonicalMIMEHeaderKey newRequestError clientDo).


(** A call that did not reach [client.Do]. *)
Lemma request_unsent_forms transport url method result object err result' :
  request' transport url method result object
  = Return Value err result' None →
  result' = result
  ∧ ∃ e, err = Some e
         ∧ Status e = 0
         ∧ ApiErr e = None
         ∧ (ErrType e = ErrorSerialization ∨ ErrType e = ErrorTransport).
Proof.
  unfold request.
  destruct (decide _); [done|]. destruct (_ && _); [done|].
  destruct (bodyReader _ _ _) as [e|reader].
  { intros [= <- <-]. split; [done|]. eexists. by auto. }
  destruct (newRequestError _ _).
  { intros [= <- <-]. split; [done|]. eexists. by auto 6. }
  destruct (clientDo _); [done|].
  destruct (decide _); [done|]. by destruct (handleResponse _ _ _ _ _ _).
Qed.

(** X13. A call that returns without having given a request to
    [client.Do] returns an error and leaves the caller's result as it
    was: the error is of type [serialization] ([json.Marshal] failed) or
    [transport] ([http.NewRequest] failed), and its status is 0. *)
Theorem request_unsent transport url method result object err result' :
  request Value jsonMarshal unmarshalApiError jsonUnmarshal
    unmarshalNilError CanonicalMIMEHeaderKey newRequestError clientDo
    transport url method result object
  = Return Value err result' None →
  result' = result
  ∧ ∃ e, err = Some e
         ∧ Status e = 0
         ∧ ApiErr e = None
         ∧ ((ErrType e = ErrorSerialization
             ∧ ∃ v, object = ObjValue Value v
                    ∧ jsonMarshal v = inl (default "" (Err e)))
            ∨ ErrType e = ErrorTransport).
Proof.
  unfold request.
  destruct (decide _); [done|]. destruct (_ && _); [done|].
  destruct (bodyReader _ _ _) as [e|reader] eqn:Hb.
  { intros [= <- <-]. split; [done|]. eexists. split; [done|].
    split; [done|]. split; [done|]. left. split; [done|].
    unfold bodyReader in Hb. destruct object as [| |v]; try done.
    exists v. split; [done|]. cbn.
    destruct (jsonMarshal v); [by injection Hb as ->|done]. }
  destruct (newRequestError _ _).
  { intros [= <- <-]. split; [done|]. eexists. split; [done|].
    split; [done|]. split; [done|]. by right. }
  destruct (clientDo _); [done|].
  destruct (decide _); [done|]. by destruct (handleResponse _ _ _ _ _ _).
Qed.

(** X14. What is sent: the request given to [client.Do] has the method
    of the call, the URL made of the transport's [Server] followed by the
    path, and as body the object itself when it is a string, its JSON
    when it is another value, and nothing when there is no object. *)
Theorem request_sent_shape
    transport url method result object err result' req :
  request Value jsonMarshal unmarshalApiError jsonUnmarshal
    unmarshalNilError CanonicalMIMEHeaderKey newRequestError clientDo
    transport url method result object
  = Return Value err result' (Some req) →
  Method req = method
  ∧ URL req = String.append (Server transport) url
  ∧ match object with
    | ObjNil _ => ReqBody req = None
    | ObjString _ s => ReqBody req = Some s
    | ObjValue _ v => jsonMarshal v = inr (default "" (ReqBody req))
                      ∧ ReqBody req ≠ None
    end.
Proof.
  unfold request.
  destruct (decide _); [done|]. destruct (_ && _); [done|].
  destruct (bodyReader _ _ _) as [e|reader] eqn:Hb; [done|].
  destruct (newRequestError _ _); [done|].
  assert (Hbody : match object with
                  | ObjNil _ => reader = None
                  | ObjString _ s => reader = Some s
                  | ObjValue _ v => jsonMarshal v = inr (default "" reader)
                                    ∧ reader ≠ None
                  end).
  { unfold bodyReader in Hb. destruct object as [|s|v].
    - by injection Hb as <-.
    - by injection Hb as <-.
    - destruct (jsonMarshal v); [done|]. by injection Hb as <-. }
  destruct (clientDo _).
  { intros [= _ _ <-]. by cbn. }
  destruct (decide _).
  { intros [= _ _ <-]. by cbn. }
  destruct (handleResponse _ _ _ _ _ _). intros [= _ _ <-]. by cbn.
Qed.

(** X15. The success path: for a GET or POST whose response has status
    200 and a readable body, a [*string] result receives the body as it
    is and the call returns nil; another result receives what
    [json.Unmarshal] makes of it, and its error, if any, comes back as a
    [serverResponse] error with status 200; a nil result always gives a
    [serverResponse] error. *)
Theorem request_200
    transport url method result object err result' req res body :
  request Value jsonMarshal unmarshalApiError jsonUnmarshal
    unmarshalNilError CanonicalMIMEHeaderKey newRequestError clientDo
    transport url method result object
  = Return Value err result' (Some req) →
  clientDo req = inr res →
  method ≠ MethodDelete →
  StatusCode res = 200 →
  Body res = inr body →
  match result with
  | ResString _ _ => err = None ∧ result' = ResString Value body
  | ResValue _ v =>
      result' = ResValue Value (jsonUnmarshal body v).1
      ∧ err = (λ e, mkError ErrorServerResponse (Some e) None 200)
              <$> (jsonUnmarshal body v).2
  | ResNil _ =>
      result' = ResNil Value
      ∧ err = Some (mkError ErrorServerResponse
                      (Some (unmarshalNilError body)) None 200)
  end.
Proof.
  intros (_ & _ & Hres)%request_sent Hdo Hm Hst Hbody.
  rewrite Hdo in Hres. rewrite decide_False in Hres by done.
  unfold handleResponse in Hres. rewrite Hbody, Hst in Hres.
  rewrite decide_False in Hres by (intros H; by apply H).
  destruct result as [|s|v].
  - by injection Hres as -> ->.
  - by injection Hres as -> ->.
  - destruct (jsonUnmarshal body v) as [v' [e|]]; by injection Hres as -> ->.
Qed.

(** X16. The caller's result is written only on the success path: when
    the result after a call differs from the result before it, the call
    was a GET or POST that got a response with status 200 and a readable
    body. *)
Theorem request_result_written
    transport url method result object err result' sent :
  request Value jsonMarshal unmarshalApiError jsonUnmarshal
    unmarshalNilError CanonicalMIMEHeaderKey newRequestError clientDo
    transport url method result object
  = Return Value err result' sent →
  result' ≠ result →
  method ≠ MethodDelete
  ∧ ∃ req res body,
      sent = Some req ∧ clientDo req = inr res
      ∧ StatusCode res = 200 ∧ Body res = inr body.
Proof.
  intros Hreq Hne. destruct sent as [req|].
  2:{ apply request_unsent_forms in Hreq as [-> _]. done. }
  apply request_sent in Hreq as (_ & _ & Hres).
  destruct (clientDo req) as [e|res] eqn:Hdo.
  { by destruct Hres as [_ ->]. }
  destruct (decide (method = MethodDelete)) as [Hd|Hd].
  { by destruct Hres as [_ ->]. }
  split; [done|]. exists req, res.
  unfold handleResponse in Hres.
  destruct (Body res) as [e|body] eqn:Hb.
  { by injection Hres as _ ->. }
  exists body. split; [done|]. split; [done|]. split; [|done].
  destruct (decide (StatusCode res ≠ 200)) as [Hst|Hst].
  - destruct (decide _); by injection Hres as _ ->.
  - by apply dec_stable.
Qed.

(** X17. The errors of [request]: an error it returns is of one of the
    four types [serialization], [transport], [api] and [serverResponse];
    it carries an [ApiError] exactly when its type is [api]; and when its
    type is [api] or [serverResponse] a response was received and the
    error carries the status of that response. *)
Theorem request_error_kinds
    transport url method result object e result' sent :
  request Value jsonMarshal unmarshalApiError jsonUnmarshal
    unmarshalNilError CanonicalMIMEHeaderKey newRequestError clientDo
    transport url method result object
  = Return Value (Some e) result' sent →
  (ErrType e = ErrorSerialization ∨ ErrType e = ErrorTransport
   ∨ ErrType e = ErrorApi ∨ ErrType e = ErrorServerResponse)
  ∧ (ApiErr e ≠ None ↔ ErrType e = ErrorApi)
  ∧ (ErrType e = ErrorApi ∨ ErrType e = ErrorServerResponse →
     ∃ req res, sent = Some req ∧ clientDo req = inr res
                ∧ Status e = StatusCode res).
Proof.
  intros Hreq. destruct sent as [req|].
  2:{ apply request_unsent_forms in Hreq
        as (_ & e' & [= <-] & _ & Hapi & [Hty|Hty]);
        rewrite Hty, Hapi; (split; [by auto|]);
        (split; [by split|]); by intros [|]. }
  apply request_sent in Hreq as (_ & _ & Hres).
  destruct (clientDo req) as [e0|res] eqn:Hdo.
  { destruct Hres as [[= ->] _]. cbn.
    split; [by auto|]. split; [by split|]. by intros [|]. }
  destruct (decide (method = MethodDelete)); [by destruct Hres|].
  unfold handleResponse in Hres.
  destruct (Body res) as [e0|body].
  { injection Hres as -> _. cbn. split; [by auto|]. split; [by split|].
    intros _. by exists req, res. }
  destruct (decide (StatusCode res ≠ 200)).
  { destruct (decide _); injection Hres as -> _; cbn;
      (split; [by auto|]); (split; [by split|]);
      intros _; by exists req, res. }
  destruct result as [|s|v].
  - injection Hres as -> _. cbn. split; [by auto|]. split; [by split|].
    intros _. by exists req, res.
  - done.
  - destruct (jsonUnmarshal body v) as [v' [e0|]]; [|done].
    injection Hres as -> _. cbn. split; [by auto|]. split; [by split|].
    intros _. by exists req, res.
Qed.

(** The forms of the errors that [request] makes. *)
Lemma request_error_forms
    transport url method result object e result' sent :
  request' transport url method result object
  = Return Value (Some e) result' sent →
  (∃ ty cause, e = mkError ty (Some cause) None (Status e)
               ∧ (ty = ErrorSerialization ∨ ty = ErrorTransport
                  ∨ ty = ErrorServerResponse))
  ∨ e = mkError ErrorServerResponse None None (Status e)
  ∨ ∃ api, e = mkError ErrorApi None (Some api) (Status e).
Proof.
  unfold request.
  destruct (decide _); [done|]. destruct (_ && _); [done|].
  destruct (bodyReader _ _ _) as [e0|reader].
  { intros [= <- _ _]. left. eexists _, _. split; [done|]. by left. }
  destruct (newRequestError _ _).
  { intros [= <- _ _]. left. eexists _, _. split; [done|]. by auto. }
  destruct (clientDo _) as [e0|res].
  { intros [= <- _ _]. left. eexists _, _. split; [done|]. by auto. }
  destruct (decide _); [done|]. unfold handleResponse.
  destruct (Body res) as [e0|body].
  { intros [= <- _ _]. left. eexists _, _. split; [done|]. by auto. }
  destruct (decide (StatusCode res ≠ 200)).
  { destruct (decide _); intros [= <- _ _].
    - right. by left.
    - right. right. by eexists. }
  destruct result as [|s|v].
  - intros [= <- _ _]. left. eexists _, _. split; [done|]. by auto.
  - done.
  - destruct (jsonUnmarshal body v) as [v' [e0|]]; [|done].
    intros [= <- _ _]. left. eexists _, _. split; [done|]. by auto.
Qed.

(** X18. A header that [SetHeader] has set reaches every request under
    its canonical name, and replaces what [request] itself had set under
    that name (the user agent, the content type), provided no other
    header of the transport has the same canonical name. *)
Theorem SetHeader_reaches_request
    transport name val url method result object err result' req :
  request Value jsonMarshal unmarshalApiError jsonUnmarshal
    unmarshalNilError CanonicalMIMEHeaderKey newRequestError clientDo
    (SetHeader name val transport) url method result object
  = Return Value err result' (Some req) →
  (∀ name' val', headers transport !! name' = Some val' → name' ≠ name →
     CanonicalMIMEHeaderKey name' ≠ CanonicalMIMEHeaderKey name) →
  ReqHeader req !! CanonicalMIMEHeaderKey name = Some val.
Proof.
  intros (-> & _ & _)%request_sent Hother. unfold requestHeaders.
  cbn zeta.
  match goal with |- setCustomHeaders _ ?c ?h !! ?k = _ =>
    destruct (setCustomHeaders_named CanonicalMIMEHeaderKey c h k)
      as ([name' val'] & Hin & Hkey & Hlook) end.
  { exists (name, val). split; [|done].
    apply elem_of_map_to_list. cbn. apply lookup_insert_eq. }
  rewrite Hlook. cbn in *.
  apply elem_of_map_to_list in Hin. cbn in Hin.
  apply lookup_insert_Some in Hin as [[_ <-]|[Hne Hin]]; [done|].
  by destruct (Hother name' val' Hin).
Qed.

Lemma prefix_append s t : String.prefix s (String.append s t) = true.
Proof.
  induction s as [|a s IH]; simpl; [by destruct t|].
  destruct (ascii_dec a a); done.
Qed.

Lemma prefix_refl s : String.prefix s s = true.
Proof.
  induction s as [|a s IH]; simpl; [done|].
  destruct (ascii_dec a a); done.
Qed.

(** X19. The message of an error of [request]: [Error] always starts
    with the type of the error; for a [serialization] or [transport]
    error it is the type, a colon and the cause; for an [api] error it
    is just [api], without the name or the message of the [ApiError] the
    error carries. *)
Theorem request_error_message
    transport url method result object e result' sent :
  request Value jsonMarshal unmarshalApiError jsonUnmarshal
    unmarshalNilError CanonicalMIMEHeaderKey newRequestError clientDo
    transport url method result object
  = Return Value (Some e) result' sent →
  String.prefix (ErrType e) (Error e) = true
  ∧ (ErrType e = ErrorSerialization ∨ ErrType e = ErrorTransport →
     ∃ cause, Err e = Some cause
              ∧ Error e
                = String.append (ErrType e) (String.append ": " cause))
  ∧ (ErrType e = ErrorApi → Error e = "api" ∧ ApiErr e ≠ None).
Proof.
  intros Hreq. split.
  { unfold Error. destruct (Err e).
    - apply prefix_append.
    - apply prefix_refl. }
  apply request_error_forms in Hreq
    as [(ty & cause & -> & Hty)|[->|(api & ->)]]; cbn.
  - split; [by eexists|]. intros ->.
    destruct Hty as [|[|]]; discriminate.
  - split; [|done]. intros [|]; discriminate.
  - split; [|done]. intros [|]; discriminate.
Qed.

End Transport.

Lemma get_status_200 :
  Get unit marshalUnit decodeApiError decodeUnit nilTargetError
    canonicalKey noRequestError serverSays200 exTransport "status"
    (ResString unit "before")
  = Return unit None (ResString unit "DONE") (Some exGetRequest).
Proof. vm_compute. reflexivity. Qed.

Lemma post_rejected_url :
  Post unit marshalUnit decodeApiError decodeUnit nilTargetError
    canonicalKey rejectURL serverSays200 exTransport "proofs"
    (ResString unit "before") (ObjString unit "token")
  = Return unit (Some (mkError ErrorTransport (Some "invalid URL") None 0))
      (ResString unit "before") None.
Proof. vm_compute. reflexivity. Qed.

Lemma get_with_agent :
  Get unit marshalUnit decodeApiError decodeUnit nilTargetError
    canonicalKey noRequestError serverSays200
    (SetHeader "user-agent" "my-client" exTransport) "status"
    (ResString unit "before")
  = Return unit None (ResString unit "DONE") (Some exGetRequestAgent).
Proof. vm_compute. reflexivity. Qed.

Lemma request_unsent_witness :
  ∃ e, Some (mkError ErrorTransport (Some "invalid URL") None 0) = Some e
       ∧ Status e = 0.
Proof.
  destruct (request_unsent unit marshalUnit decodeApiError decodeUnit
              nilTargetError canonicalKey rejectURL serverSays200
              exTransport "proofs" MethodPost (ResString unit "before")
              (ObjString unit "token") _ _ post_rejected_url)
    as (_ & e & He & Hst & _).
  exists e. split; [exact He|exact Hst].
Defined.

Lemma request_sent_shape_witness :
  URL exGetRequest = String.append (Server exTransport) "status".
Proof.
  apply (request_sent_shape unit marshalUnit decodeApiError decodeUnit
           nilTargetError canonicalKey noRequestError serverSays200
           exTransport "status" MethodGet (ResString unit "before")
           (ObjNil unit) _ _ exGetRequest get_status_200).
Defined.

Lemma request_200_witness :
  @None SessionError = None
  ∧ ResString unit "DONE" = ResString unit "DONE".
Proof.
  apply (request_200 unit marshalUnit decodeApiError decodeUnit
           nilTargetError canonicalKey noRequestError serverSays200
           exTransport "status" MethodGet (ResString unit "before")
           (ObjNil unit) None (ResString unit "DONE") exGetRequest
           {| StatusCode := 200; Body := inr "DONE" |} "DONE"
           get_status_200 eq_refl).
  - discriminate.
  - reflexivity.
  - reflexivity.
Defined.

Lemma request_result_written_witness : MethodGet ≠ MethodDelete.
Proof.
  apply (request_result_written unit marshalUnit decodeApiError decodeUnit
           nilTargetError canonicalKey noRequestError serverSays200
           exTransport "status" MethodGet (ResString unit "before")
           (ObjNil unit) _ _ _ get_status_200).
  discriminate.
Defined.

Lemma request_error_kinds_witness :
  ApiErr (mkError ErrorApi None (Some apiUnknownSession) 400) ≠ None
  ↔ ErrType (mkError ErrorApi None (Some apiUnknownSession) 400) = ErrorApi.
Proof.
  apply (request_error_kinds unit marshalUnit decodeApiError decodeUnit
           nilTargetError canonicalKey noRequestError serverSays400
           exTransport "status" MethodGet (ResString unit "before")
           (ObjNil unit) _ _ _ get_status_400).
Defined.

Lemma SetHeader_reaches_request_witness :
  ReqHeader exGetRequestAgent !! canonicalKey "user-agent"
  = Some "my-client".
Proof.
  apply (SetHeader_reaches_request unit marshalUnit decodeApiError
           decodeUnit nilTargetError canonicalKey noRequestError
           serverSays200 exTransport "user-agent" "my-client" "status"
           MethodGet (ResString unit "before") (ObjNil unit) _ _ _
           get_with_agent).
  intros name' val' Hlook. vm_compute in Hlook. discriminate.
Defined.

Lemma request_error_message_witness :
  Error (mkError ErrorApi None (Some apiUnknownSession) 400) = "api".
Proof.
  apply (request_error_message unit marshalUnit decodeApiError decodeUnit
           nilTargetError canonicalKey noRequestError serverSays400
           exTransport "status" MethodGet (ResString unit "before")
           (ObjNil unit) _ _ _ get_status_400).
  reflexivity.
Defined.

End TransportMore.

(** ** Requestor JWTs *)

Module JwtSpec.
Import Irmago TransportExamples.

Lemma Split_nonempty s sep : Split s sep ≠ [].
Proof.
  induction s as [|c s IH]; simpl; [done|].
  destruct (Ascii.eqb c sep); [done|]. by destruct (Split s sep).
Qed.

(** A string without the separator is one piece. *)
Lemma Split_no_sep s sep :
  ¬ In sep (list_ascii_of_string s) → Split s sep = [s].
Proof.
  induction s as [|c s IH]; simpl; intros Hn; [done|].
  destruct (Ascii.eqb_spec c sep) as [->|Hne]; [by destruct Hn; left|].
  rewrite IH; [done|]. intros Hin. apply Hn. by right.
Qed.

(** A string with the separator has at least two pieces. *)
Lemma Split_sep s sep :
  In sep (list_ascii_of_string s) → (2 ≤ length (Split s sep))%nat.
Proof.
  induction s as [|c s IH]; simpl; intros Hin; [done|].
  destruct (Ascii.eqb_spec c sep) as [->|Hne].
  - pose proof (Split_nonempty s sep).
    destruct (Split s sep); [done|]. simpl. lia.
  - destruct Hin as [->|Hin]; [done|]. specialize (IH Hin).
    destruct (Split s sep); simpl in *; lia.
Qed.

(** The first piece ends at the first separator. *)
Lemma Split_append h t sep :
  ¬ In sep (list_ascii_of_string h) →
  Split (String.append h (String sep t)) sep = h :: Split t sep.
Proof.
  induction h as [|c h IH]; simpl; intros Hn.
  - by rewrite Ascii.eqb_refl.
  - destruct (Ascii.eqb_spec c sep) as [->|Hne]; [by destruct Hn; left|].
    rewrite IH; [done|]. intros Hin. apply Hn. by right.
Qed.

Section Jwt.

Variable Target : Type.
Variable base64Decode : string → string + string.
Variable unmarshalHeader : string → string * option string.
Variable unmarshalBody : string → Target → Target * option string.

Local Abbreviation jwtDecode' :=
  (jwtDecode Target base64Decode unmarshalHeader unmarshalBody).

(** X20. [jwtDecode] rejects a string exactly for its shape when it has
    no dot: the result is the empty issuer, the error [Not a JWT] and the
    body as it was, whatever the decoders would do.  A string with a dot
    is always handed to the base64 decoder. *)
Theorem jwtDecode_not_a_jwt (jwt : string) (body : Target) :
  (¬ In "."%char (list_ascii_of_string jwt) →
   jwtDecode Target base64Decode unmarshalHeader unmarshalBody jwt body
   = ("", Some "Not a JWT", body))
  ∧ (In "."%char (list_ascii_of_string jwt) →
     ∀ err, base64Decode (nth 0 (Split jwt ".") "") = inl err →
       jwtDecode Target base64Decode unmarshalHeader unmarshalBody jwt body
       = ("", Some err, body)).
Proof.
  split.
  - intros Hn. unfold jwtDecode. by rewrite Split_no_sep.
  - intros Hin err Herr. unfold jwtDecode.
    apply (Split_sep _ "."%char) in Hin.
    destruct (Nat.ltb_spec (length (Split jwt ".")) 2); [lia|].
    by rewrite Herr.
Qed.

(** X21. [jwtDecode] reads the first two parts only: what follows a
    second dot, the signature of the JWT, has no influence on the issuer,
    the error or the body it returns. *)
Theorem jwtDecode_ignores_signature (h b rest : string) (body : Target) :
  ¬ In "."%char (list_ascii_of_string h) →
  ¬ In "."%char (list_ascii_of_string b) →
  jwtDecode Target base64Decode unmarshalHeader unmarshalBody
    (String.append h (String "." (String.append b (String "." rest)))) body
  = jwtDecode Target base64Decode unmarshalHeader unmarshalBody
      (String.append h (String "." b)) body.
Proof.
  intros Hh Hb. unfold jwtDecode.
  rewrite !Split_append by done. rewrite (Split_no_sep b) by done.
  pose proof (Split_nonempty rest "."%char).
  destruct (Split rest ".") as [|p ps]; [done|]. done.
Qed.

(** X22. When [jwtDecode] returns no error, or an issuer that is not
    empty, the string had at least two parts, both parts were decoded
    from base64, the header was parsed without error and gave the issuer
    returned, and the body and the error returned are those of
    unmarshalling the second part. *)
Theorem jwtDecode_success (jwt : string) (body : Target) iss err body' :
  jwtDecode Target base64Decode unmarshalHeader unmarshalBody jwt body
  = (iss, err, body') →
  err = None ∨ iss ≠ "" →
  (2 ≤ length (Split jwt "."))%nat
  ∧ ∃ headerbytes bodybytes,
      base64Decode (nth 0 (Split jwt ".") "") = inr headerbytes
      ∧ unmarshalHeader headerbytes = (iss, None)
      ∧ base64Decode (nth 1 (Split jwt ".") "") = inr bodybytes
      ∧ unmarshalBody bodybytes body = (body', err).
Proof.
  unfold jwtDecode. intros Hdec Hok.
  destruct (Nat.ltb_spec (length (Split jwt ".")) 2) as [Hlt|Hge].
  { injection Hdec as <- <- _. by destruct Hok. }
  split; [done|].
  destruct (base64Decode (nth 0 _ _)) as [e|hb].
  { injection Hdec as <- <- _. by destruct Hok. }
  destruct (unmarshalHeader hb) as [issuer [e|]] eqn:Hh.
  { injection Hdec as <- <- _. by destruct Hok. }
  destruct (base64Decode (nth 1 _ _)) as [e|bb].
  { injection Hdec as <- <- _. by destruct Hok. }
  destruct (unmarshalBody bb body) as [b' e] eqn:Hb.
  injection Hdec as <- <- <-. by exists hb, bb.
Qed.

End Jwt.

Lemma jwtDecode_ignores_signature_witness :
  jwtDecode unit plainBase64 headerIsIssuer dropBody
    (String.append "testsp"
       (String "." (String.append "body" (String "." "signature")))) tt
  = jwtDecode unit plainBase64 headerIsIssuer dropBody
      (String.append "testsp" (String "." "body")) tt.
Proof.
  apply (jwtDecode_ignores_signature unit plainBase64 headerIsIssuer
           dropBody "testsp" "body" "signature" tt).
  - vm_compute. intuition discriminate.
  - vm_compute. intuition discriminate.
Defined.

Lemma jwtDecode_success_witness :
  (2 ≤ length (Split "testsp.body.signature" "."))%nat.
Proof.
  apply (jwtDecode_success unit plainBase64 headerIsIssuer dropBody
           "testsp.body.signature" tt "testsp" None tt eq_refl
           (or_introl eq_refl)).
Defined.

Section RequestorJwt.

Variable Content : Type.
Variable zeroContent : JwtKind → Content.
Variable base64Decode : string → string + string.
Variable unmarshalHeader : string → string * option string.
Variable unmarshalJwt :
  JwtKind → string → Content → Content * option string.

(** X23. [parseRequestorJwt]: an action other than [disclosing],
    [signing] and [issuing] gives the error [Invalid session type]
    without the JWT being looked at; whenever there is an error there is
    neither a JWT nor a server name, even if the header had been parsed;
    and a JWT that is returned has the kind of the action: a service
    provider JWT for [disclosing], a signature requestor JWT for
    [signing], an identity provider JWT for [issuing]. *)
Theorem parseRequestorJwt_kinds (action jwt : string) :
  (action ≠ ActionDisclosing → action ≠ ActionSigning →
   action ≠ ActionIssuing →
   parseRequestorJwt Content zeroContent base64Decode unmarshalHeader
     unmarshalJwt action jwt
   = (None, "", Some "Invalid session type"))
  ∧ ∀ j server err,
      parseRequestorJwt Content zeroContent base64Decode unmarshalHeader
        unmarshalJwt action jwt
      = (j, server, err) →
      match err with
      | Some _ => j = None ∧ server = ""
      | None =>
          ∃ j0, j = Some j0
                ∧ ((action = ActionDisclosing
                    ∧ jwtKind Content j0 = ServiceProviderJwt)
                   ∨ (action = ActionSigning
                      ∧ jwtKind Content j0 = SignatureRequestorJwt)
                   ∨ (action = ActionIssuing
                      ∧ jwtKind Content j0 = IdentityProviderJwt))
      end.
Proof.
  split.
  - intros Hd Hs Hi. unfold parseRequestorJwt.
    by rewrite !decide_False by done.
  - intros j server err. unfold parseRequestorJwt.
    assert (Hkind : ∀ kind jwt0 s e r,
              jwtDecode (RequestorJwt Content) base64Decode unmarshalHeader
                (unmarshalRequestorJwt Content unmarshalJwt) jwt0
                {| jwtKind := kind; jwtContent := zeroContent kind |}
              = (s, e, r) → jwtKind Content r = kind).
    { intros kind jwt0 s e r. unfold jwtDecode.
      destruct (_ <? _)%nat; [by intros [= _ _ <-]|].
      destruct (base64Decode (nth 0 _ _)); [by intros [= _ _ <-]|].
      destruct (unmarshalHeader _) as [? [?|]]; [by intros [= _ _ <-]|].
      destruct (base64Decode (nth 1 _ _)); [by intros [= _ _ <-]|].
      unfold unmarshalRequestorJwt. cbn.
      destruct (unmarshalJwt _ _ _). by intros [= _ _ <-]. }
    destruct (decide (action = ActionDisclosing)) as [Hd|Hd];
      [|destruct (decide (action = ActionSigning)) as [Hs|Hs];
        [|destruct (decide (action = ActionIssuing)) as [Hi|Hi]]].
    4:{ by intros [= <- <- <-]. }
    all: destruct (jwtDecode _ _ _ _ _ _) as [[s e] r] eqn:Hdec;
      apply Hkind in Hdec;
      destruct e; intros [= <- <- <-]; [done|];
      exists r; split; [done|]; by auto.
Qed.

End RequestorJwt.

End JwtSpec.

(** ** The default permissions *)

Module CmdSpec.
Import Cmd.

Section Viper.

Variable IsSet : string → bool.
Variable GetBool : string → bool.
Variable GetStringSlice : string → option (list string).

(** X24. [handlePermission] never returns nil.  A permission that is not
    set defaults to the wildcard, except [issue-perms] in production
    mode; in every other case the result is the list the configuration
    holds, the empty list when that is nil.  So outside production mode
    all three permissions of [configure] default to the wildcard, and in
    production mode only issuing does not. *)
Theorem handlePermission_defaults (typ : string) :
  (∃ perms, handlePermission IsSet GetBool GetStringSlice typ = Some perms)
  ∧ (IsSet typ = false →
     GetBool "production" = false ∨ typ ≠ "issue-perms" →
     handlePermission IsSet GetBool GetStringSlice typ = Some ["*"])
  ∧ (IsSet typ = true
     ∨ (GetBool "production" = true ∧ typ = "issue-perms") →
     handlePermission IsSet GetBool GetStringSlice typ
     = Some (default [] (GetStringSlice typ)))
  ∧ (IsSet "disclose-perms" = false →
     Disclosing (configuredPermissions IsSet GetBool GetStringSlice)
     = Some ["*"])
  ∧ (IsSet "sign-perms" = false →
     Signing (configuredPermissions IsSet GetBool GetStringSlice)
     = Some ["*"])
  ∧ (IsSet "issue-perms" = false →
     Issuing (configuredPermissions IsSet GetBool GetStringSlice)
     = if GetBool "production"
       then Some (default [] (GetStringSlice "issue-perms"))
       else Some ["*"]).
Proof.
  unfold configuredPermissions, handlePermission. cbn.
  split; [|split; [|split; [|split; [|split]]]].
  - destruct (_ && _); [by eexists|].
    destruct (GetStringSlice typ); by eexists.
  - intros -> [->|Hne]; [done|].
    apply String.eqb_neq in Hne. rewrite Hne.
    by rewrite orb_true_r.
  - intros [->|[-> ->]].
    + cbn. by destruct (GetStringSlice _).
    + rewrite String.eqb_refl. cbn. rewrite andb_false_r.
      by destruct (GetStringSlice _).
  - intros ->. by rewrite orb_true_r.
  - intros ->. by rewrite orb_true_r.
  - intros ->. destruct (GetBool "production"); cbn; [|done].
    by destruct (GetStringSlice _).
Qed.

End Viper.

End CmdSpec.
